(** * Doppio JVM: classpath driver and method model

    A shallow embedding of [src/jvm.coffee] (class bytes provider) and
    [src/methods.ts] (method records, dispatch resolver, argument
    marshaller), with the properties of the specification proved or refuted
    against it. *)

From Stdlib Require Import ZArith Ascii String Lia.
From stdpp Require Import base option list strings gmap.
From Equations Require Import Equations.

Open Scope string_scope.
Open Scope list_scope.
Open Scope stdpp_scope.

(** ** JavaScript values shared by both source files *)

Module JS.

(** Exceptions that the modelled code raises or lets through. *)
Inductive exn :=
| Error (msg : string)          (* new Error(msg) *)
| TypeError (msg : string)      (* property access on null / undefined *)
| RangeError (msg : string)     (* invalid array length *)
| AssertionError                (* assert(false) *)
| BadDescriptor (rest : string) (* thrown by the descriptor token reader *)
| IoError (code : string).      (* raised by the file system *)

(** How a call completes: it returns, or it throws. *)
Inductive completion :=
| Return
| Throw (e : exn).

(** A call that may throw succeeds when it gives a value. *)
Definition succeeds {A} (r : exn + A) : Prop := exists x, r = inr x.

(** [s.charAt(s.length - 1)]: the last character, or nothing for [""]
    (JavaScript gives the empty string there). *)
Fixpoint last_char (s : string) : option ascii :=
  match s with
  | EmptyString => None
  | String c EmptyString => Some c
  | String _ s' => last_char s'
  end.

(** [s.slice(0, -1)]. *)
Fixpoint drop_last (s : string) : string :=
  match s with
  | EmptyString => EmptyString
  | String _ EmptyString => EmptyString
  | String c s' => String c (drop_last s')
  end.

(** [s.slice(1, -1)], which CoffeeScript writes [s[1...-1]]. *)
Definition slice_1_m1 (s : string) : string :=
  match s with
  | EmptyString => EmptyString
  | String _ s' => drop_last s'
  end.

(** [s.split(sep)] for a one-character separator: never the empty list,
    [""] splits to [[""]]. *)
Fixpoint split (sep : ascii) (s : string) : list string :=
  match s with
  | EmptyString => [EmptyString]
  | String c s' =>
      if Ascii.eqb c sep then EmptyString :: split sep s'
      else match split sep s' with
           | [] => [String c EmptyString]
           | w :: ws => String c w :: ws
           end
  end.

End JS.

(** ** [src/jvm.coffee]: the class bytes provider *)

Module Jvm.
Import JS.

(** The part of node's [fs] that the driver uses. [existsSync] never
    throws; [readFileSync] returns the file as a binary string or raises. *)
Record FS := {
  existsSync : string -> bool;
  readFileSync : string -> exn + string
}.

(** The module object [root]. *)
Record root := {
  classpath : list string;
  show_NYI_natives : bool;
  dump_state : bool
}.

Definition root_init : root :=
  {| classpath := []; show_NYI_natives := false; dump_state := false |}.

(** What an observer of [read_classfile] sees: the file system probes and
    the callback invocations, in order. *)
Inductive event :=
| FsExists (filename : string)
| FsRead (filename : string)
| Cb (data : list Z)
| FailureCb (e : exn).

(** Computations that log events and may throw: the log so far and either
    the exception in flight or the value. *)
Definition M (A : Type) : Type := list event * (exn + A).

#[global] Instance M_ret : MRet M := fun A x => ([], inr x).

#[global] Instance M_bind : MBind M := fun A B f m =>
  match m with
  | (tr, inl e) => (tr, inl e)
  | (tr, inr x) => let '(tr', r) := f x in (tr ++ tr', r)
  end.

Definition throw {A} (e : exn) : M A := ([], inl e).

(** [try body catch e handler]. *)
Definition try_catch {A} (body : M A) (handler : exn -> M A) : M A :=
  match body with
  | (tr, inl e) => let '(tr', r) := handler e in (tr ++ tr', r)
  | (tr, inr x) => (tr, inr x)
  end.

Definition emit (ev : event) : M unit := ([ev], inr tt).

(** Invoking a callback logs the call; the callback may throw. *)
Definition call (ev : event) (c : completion) : M unit :=
  match c with
  | Return => ([ev], inr tt)
  | Throw e => ([ev], inl e)
  end.

(** How one iteration of the [for] loop ends. *)
Inductive iteration :=
| Continue
| Returned.

Section Driver.

Variable fs : FS.
(** [util.bytestr_to_array] is not in the sources at hand; it turns the
    binary string into an array of byte values, so its result is never
    null. *)
Variable bytestr_to_array : string -> list Z.
(** node's [path.normalize]. *)
Variable normalize : string -> string.

Definition fs_exists (filename : string) : M bool :=
  emit (FsExists filename);; mret (existsSync fs filename).

Definition fs_read (filename : string) : M string :=
  emit (FsRead filename);;
  match readFileSync fs filename with
  | inl e => throw e
  | inr s => mret s
  end.

Definition class_filename (p cls : string) : string :=
  p +:+ "/" +:+ cls +:+ ".class".

(** The body of the loop of [read_classfile], for classpath entry [p]. *)
Definition read_classfile_body (cls : string)
    (cb : list Z -> completion) (failure_cb : exn -> completion)
    (p : string) : M iteration :=
  let filename := class_filename p cls in
  try_catch
    (ex ← fs_exists filename;
     if negb ex then mret Continue
     else
       s ← fs_read filename;
       let data := bytestr_to_array s in
       (* cb(data) if data? -- an array is neither null nor undefined *)
       call (Cb data) (cb data);;
       mret Returned)
    (fun e =>
       call (FailureCb e) (failure_cb e);;
       mret Returned).

Fixpoint read_classfile_loop (cls : string)
    (cb : list Z -> completion) (failure_cb : exn -> completion)
    (ps : list string) : M unit :=
  match ps with
  | [] =>
      let e := Error ("Error: No file found for class " +:+ cls +:+ ".") in
      call (FailureCb e) (failure_cb e)
  | p :: ps' =>
      r ← read_classfile_body cls cb failure_cb p;
      match r with
      | Continue => read_classfile_loop cls cb failure_cb ps'
      | Returned => mret tt
      end
  end.

Definition read_classfile (st : root) (cls : string)
    (cb : list Z -> completion) (failure_cb : exn -> completion) : M unit :=
  let cls := slice_1_m1 cls in
  read_classfile_loop cls cb failure_cb (classpath st).

(** The path of one entry as [set_classpath] standardizes it. *)
Definition standardize (class_path : string) : string :=
  let class_path := normalize class_path in
  if negb (bool_decide (last_char class_path = Some "/"%char))
  then class_path +:+ "/"
  else class_path.

Definition set_classpath (jcl_path classpath0 : string) (st : root) : root :=
  let classpath1 := split ":"%char classpath0 in
  let classpath1 := classpath1 ++ [jcl_path] in
  let st := {| classpath := [];
               show_NYI_natives := show_NYI_natives st;
               dump_state := dump_state st |} in
  fold_left
    (fun st class_path =>
       let class_path := standardize class_path in
       if existsSync fs class_path
       then {| classpath := classpath st ++ [class_path];
               show_NYI_natives := show_NYI_natives st;
               dump_state := dump_state st |}
       else st)
    classpath1 st.

(** Views of a log. *)
Definition probes (tr : list event) : list string :=
  omap (fun ev => match ev with FsExists f => Some f | _ => None end) tr.

Definition reads (tr : list event) : list string :=
  omap (fun ev => match ev with FsRead f => Some f | _ => None end) tr.

Definition delivered (tr : list event) : list (list Z) :=
  omap (fun ev => match ev with Cb d => Some d | _ => None end) tr.

Definition callbacks (tr : list event) : list event :=
  List.filter
    (fun ev => match ev with Cb _ | FailureCb _ => true | _ => false end) tr.

(** The entries that a search visits: up to and including the first one
    under which the class file exists. *)
Fixpoint searched (cls : string) (ps : list string) : list string :=
  match ps with
  | [] => []
  | p :: ps' =>
      if existsSync fs (class_filename p cls) then [p]
      else p :: searched cls ps'
  end.

End Driver.

End Jvm.

(** ** [src/util]: the helpers that [src/methods.ts] imports *)

Module Util.
Import JS.
Local Open Scope Z_scope.

(** Modelled from the spec: the class [util.Flags] is not in the sources at
    hand. The specification describes the access flags as a 16-bit bitfield
    with at least [STATIC], [NATIVE], [ABSTRACT] and [VARARGS], and the
    resolver forces [NATIVE := true]; the masks are those of the class-file
    format. *)
Record Flags := { byte : Z }.

Definition ACC_STATIC : Z := 0x0008.
Definition ACC_VARARGS : Z := 0x0080.
Definition ACC_NATIVE : Z := 0x0100.
Definition ACC_ABSTRACT : Z := 0x0400.

Definition isStatic (f : Flags) : bool := 0 <? Z.land (byte f) ACC_STATIC.
Definition isVarArgs (f : Flags) : bool := 0 <? Z.land (byte f) ACC_VARARGS.
Definition isNative (f : Flags) : bool := 0 <? Z.land (byte f) ACC_NATIVE.
Definition isAbstract (f : Flags) : bool := 0 <? Z.land (byte f) ACC_ABSTRACT.

Definition setNative (n : bool) (f : Flags) : Flags :=
  {| byte := if n then Z.lor (byte f) ACC_NATIVE
             else Z.land (byte f) (Z.lnot ACC_NATIVE) |}.

(** The one-character descriptors. *)
Definition is_primitive (c : ascii) : bool :=
  bool_decide (c ∈ list_ascii_of_string "BSCIJFDZV").

(** The rest of an [L<name>;] token: everything up to and including the
    first [;], and what follows it. *)
Fixpoint read_class_name (carr : list ascii)
    : option (list ascii * list ascii) :=
  match carr with
  | [] => None
  | c :: rest =>
      if Ascii.eqb c ";" then Some ([c], rest)
      else '(n, r) ← read_class_name rest; Some (c :: n, r)
  end.

(** Modelled from the spec: [util.carr2descriptor] is not in the sources at
    hand. It consumes one descriptor token from the front of the character
    array: one character of [BSCIJFDZV], or [L<name>;] up to and including
    the first [;], or [[] followed by another token. It fails with
    [BadDescriptor] when the token is incomplete or starts with an unknown
    character, and gives [null] on the empty array (which is what ends the
    loop of [Method.parse_descriptor]). The result carries the array as the
    call leaves it. *)
Fixpoint carr2descriptor (carr : list ascii)
    : exn + (option string * list ascii) :=
  match carr with
  | [] => inr (None, [])
  | c :: rest =>
      if is_primitive c then inr (Some (String c ""), rest)
      else if Ascii.eqb c "L" then
        match read_class_name rest with
        | Some (n, r) => inr (Some (String c (string_of_list_ascii n)), r)
        | None => inl (BadDescriptor (string_of_list_ascii carr))
        end
      else if Ascii.eqb c "[" then
        match carr2descriptor rest with
        | inr (Some t, r) => inr (Some (String c t), r)
        | inr (None, _) => inl (BadDescriptor (string_of_list_ascii carr))
        | inl e => inl e
        end
      else inl (BadDescriptor (string_of_list_ascii carr))
  end.

(** The token grammar of the specification, as a predicate. *)
Inductive token : list ascii -> Prop :=
| token_primitive c :
    is_primitive c = true -> token [c]
| token_class name :
    ";"%char ∉ name -> token ("L"%char :: name ++ [";"%char])
| token_array t :
    token t -> token ("["%char :: t).

(** A parameter region is well formed when it is a sequence of tokens. *)
Definition well_formed_params (region : list ascii) : Prop :=
  exists toks, Forall token toks /\ concat toks = region.

End Util.

(** ** [src/methods.ts]: method records, resolver and marshaller *)

Module Methods.
Import JS Util.
Local Open Scope Z_scope.

(** *** Values and the array store *)

Definition loc := nat.

(** What a stack slot or an argument can hold, as far as the marshaller
    tells them apart. *)
Inductive value :=
| Undefined
| Null
| Thread (id : nat)
| Ref (a : loc)
| Num (n : Z).

(** JavaScript arrays are shared mutable objects: the store maps each
    array reference to its elements, and allocation takes the next free
    reference. *)
Abbreviation heap := (list (list value)).

(** Computations on the store that may throw. The store survives a throw. *)
Definition H (A : Type) : Type := heap -> (exn + A) * heap.

#[global] Instance H_ret : MRet H := fun A x h => (inr x, h).

#[global] Instance H_bind : MBind H := fun A B f m h =>
  match m h with
  | (inl e, h') => (inl e, h')
  | (inr x, h') => f x h'
  end.

Definition raise {A} (e : exn) : H A := fun h => (inl e, h).

(** [[...]] and [new Array]: a fresh array. *)
Definition array_new (l : list value) : H loc :=
  fun h => (inr (length h), h ++ [l]).

Definition array_contents (a : loc) : H (list value) :=
  fun h => match h !! a with
           | Some l => (inr l, h)
           | None => (inl (TypeError "not an array"), h)
           end.

Definition array_store (a : loc) (l : list value) : H unit :=
  fun h => (inr tt, <[a := l]> h).

(** [a.length]. *)
Definition array_length (a : loc) : H Z :=
  l ← array_contents a; mret (Z.of_nat (length l)).

(** [a[i]]: [undefined] outside the array. *)
Definition array_get (a : loc) (i : Z) : H value :=
  l ← array_contents a;
  mret (if i <? 0 then Undefined else default Undefined (l !! Z.to_nat i)).

(** [a.push(v)]. *)
Definition array_push (a : loc) (v : value) : H unit :=
  l ← array_contents a; array_store a (l ++ [v]).

(** [a.unshift(v)]. *)
Definition array_unshift (a : loc) (v : value) : H unit :=
  l ← array_contents a; array_store a (v :: l).

(** [a.slice(start)]: a new array; a negative [start] counts from the end. *)
Definition array_slice (a : loc) (start : Z) : H loc :=
  l ← array_contents a;
  let len := Z.of_nat (length l) in
  let k := if start <? 0 then Z.max (len + start) 0 else Z.min start len in
  array_new (drop (Z.to_nat k) l).

(** [a.length = n]: truncates or pads in place; a negative length is a
    [RangeError]. (The store puts no bound on the size of an array.) *)
Definition array_set_length (a : loc) (n : Z) : H unit :=
  l ← array_contents a;
  if n <? 0 then raise (RangeError "Invalid array length")
  else array_store a
         (take (Z.to_nat n) l ++ replicate (Z.to_nat n - length l)%nat Undefined).

(** *** Attributes and code *)

(** An attribute as far as this file looks into it: its name, and an
    opaque body. *)
Record attribute := {
  getName : string;
  body : Z
}.

(** The functions stored in [trapped_methods]. *)
Inductive trap :=
| Reference_clinit
| System_loadLibrary
| Terminator_setup
| AtomicInteger_compareAndSet
| Bits_byteOrder
| Bits_copyToByteArray
| Charset3_run.

Definition trapped_methods : gmap string (gmap string trap) :=
  {[ "java/lang/ref/Reference" :=
       {[ "<clinit>()V" := Reference_clinit ]};
     "java/lang/System" :=
       {[ "loadLibrary(Ljava/lang/String;)V" := System_loadLibrary ]};
     "java/lang/Terminator" :=
       {[ "setup()V" := Terminator_setup ]};
     "java/util/concurrent/atomic/AtomicInteger" :=
       {[ "compareAndSet(II)Z" := AtomicInteger_compareAndSet ]};
     "java/nio/Bits" :=
       {[ "byteOrder()Ljava/nio/ByteOrder;" := Bits_byteOrder;
          "copyToByteArray(JLjava/lang/Object;JJ)V" := Bits_copyToByteArray ]};
     "java/nio/charset/Charset$3" :=
       {[ "run()Ljava/lang/Object;" := Charset3_run ]} ]}.

(** The function values that [Method.parse] can put into [code]. *)
Inductive function :=
| Trapped (t : trap)
| NativeBinder (clsName methSig sig : string)
| Nop.

(** The [code] field: never assigned, a function, or what
    [get_attribute('Code')] gave ([None] for [null]). *)
Inductive code_slot :=
| CodeUndefined
| CodeFunction (f : function)
| CodeAttribute (a : option attribute).

(** [typeof code === 'function']. *)
Definition is_function (c : code_slot) : bool :=
  match c with
  | CodeFunction _ => true
  | _ => false
  end.

(** *** The collaborators of [parse] *)

Class Collaborators := {
  ByteStream : Type;
  ConstantPool : Type;
  (** [bytes_array.getUint16()] *)
  getUint16 : ByteStream -> Z * ByteStream;
  (** [(<ConstUTF8> constant_pool.get(i)).value] *)
  utf8_value : ConstantPool -> Z -> string;
  (** [attributes.makeAttributes(bytes_array, constant_pool)] *)
  makeAttributes : ByteStream -> ConstantPool -> list attribute * ByteStream;
  (** [util.descriptor2typestr] *)
  descriptor2typestr : string -> string;
  (** [util.ext_classname] *)
  ext_classname : string -> string
}.

(** *** Regular expression of [parse_descriptor] *)

(** The characters before the first [c], and those after it. *)
Fixpoint until_char (c : ascii) (s : list ascii)
    : option (list ascii * list ascii) :=
  match s with
  | [] => None
  | x :: s' =>
      if Ascii.eqb x c then Some ([], s')
      else '(b, a) ← until_char c s'; Some (x :: b, a)
  end.

(** [.] matches everything but a line terminator. *)
Definition is_line_terminator (c : ascii) : bool :=
  Ascii.eqb c "010" || Ascii.eqb c "013".

Fixpoint dot_star (s : list ascii) : list ascii :=
  match s with
  | [] => []
  | c :: s' => if is_line_terminator c then [] else c :: dot_star s'
  end.

(** The regular expression of [parse_descriptor] run on [s] with [exec]:
    an opening parenthesis, group 1 of characters other than the closing
    parenthesis, a closing parenthesis, group 2 of any characters but line
    terminators. The result is groups 1 and 2, or [None] for [null]. The
    match starts at the first opening parenthesis: group 1 runs to the
    first closing one after it, and when there is none no later opening
    parenthesis has one either. *)
Definition descriptor_regex (s : string)
    : option (list ascii * list ascii) :=
  '(_, after_open) ← until_char "(" (list_ascii_of_string s);
  '(params, after_close) ← until_char ")" after_open;
  Some (params, dot_star after_close).

(** A value together with the equation that says where it came from. *)
Definition inspect {A} (a : A) : {b : A | a = b} := exist _ a eq_refl.

(** [while (field = util.carr2descriptor(param_carr)) param_types.push(field)]:
    the loop ends on a falsy [field], and an exception leaves it. *)
Equations? descriptor_loop (param_types : list string)
    (param_carr : list ascii) : exn + list string
    by wf (length param_carr) lt :=
  descriptor_loop param_types param_carr
    with inspect (carr2descriptor param_carr) := {
    | exist _ (inl e) _ := inl e
    | exist _ (inr (None, _)) _ := inr param_types
    | exist _ (inr (Some EmptyString, _)) _ := inr param_types
    | exist _ (inr (Some (String a t), rest)) Hc :=
        descriptor_loop (param_types ++ [String a t]) rest }.
Proof.
  clear descriptor_loop.
  assert (Hname : forall carr nm r,
             read_class_name carr = Some (nm, r) ->
             (length r < length carr)%nat).
  { induction carr as [|x carr IH]; intros nm r Hr; simpl in Hr;
      [congruence|].
    destruct (Ascii.eqb x ";"); [injection Hr as <- <-; simpl; lia|].
    destruct (read_class_name carr) as [[nm' r']|] eqn:Hr'; simpl in Hr;
      [|congruence].
    injection Hr as <- <-. specialize (IH _ _ eq_refl). simpl in *. lia. }
  revert a t rest Hc.
  induction param_carr as [|c carr IH]; intros a t rest Hc;
    simpl in Hc; [congruence|].
  destruct (is_primitive c); [injection Hc as <- <- <-; simpl; lia|].
  destruct (Ascii.eqb c "L").
  - destruct (read_class_name carr) as [[nm r]|] eqn:Hr; [|congruence].
    apply Hname in Hr. injection Hc as <- <- <-. simpl. lia.
  - destruct (Ascii.eqb c "["); [|congruence].
    destruct (carr2descriptor carr) as [e|[[[|a' t']|] r]] eqn:Hcd;
      try congruence.
    + injection Hc as <- <- <-.
      destruct carr as [|x carr]; simpl in Hcd; [congruence|].
      destruct (is_primitive x); [congruence|].
      destruct (Ascii.eqb x "L");
        [destruct (read_class_name carr) as [[? ?]|]; congruence|].
      destruct (Ascii.eqb x "["); [|congruence].
      destruct (carr2descriptor carr) as [?|[[?|] ?]]; congruence.
    + injection Hc as <- <- <-.
      specialize (IH _ _ _ eq_refl). simpl. lia.
Qed.

(** *** [class Method] *)

(** [(p === 'D' || p === 'J') ? 2 : 1] *)
Definition param_word (p : string) : Z :=
  if String.eqb p "D" || String.eqb p "J" then 2 else 1.

(** The fields that [Method.parse_descriptor] assigns. *)
Record descriptor := {
  d_param_types : list string;
  d_param_bytes : Z;
  d_num_args : Z;
  d_return_type : string
}.

Definition parse_descriptor (accessFlags : Flags) (raw_descriptor : string)
    : exn + descriptor :=
  match descriptor_regex raw_descriptor with
  | None => inl (TypeError "Cannot read property '1' of null")
  | Some (param_str, return_str) =>
      (* param_str.split(''): the characters of the string *)
      let param_carr := param_str in
      match descriptor_loop [] param_carr with
      | inl e => inl e
      | inr param_types =>
          let param_bytes :=
            fold_left (fun acc p => acc + param_word p) param_types 0 in
          let param_bytes :=
            if negb (isStatic accessFlags) then param_bytes + 1
            else param_bytes in
          let num_args := Z.of_nat (length param_types) in
          let num_args :=
            if negb (isStatic accessFlags) then num_args + 1
            else num_args in
          inr {| d_param_types := param_types;
                 d_param_bytes := param_bytes;
                 d_num_args := num_args;
                 d_return_type := string_of_list_ascii return_str |}
      end
  end.

(** A [Method] object after [parse]. [cls] stands for the owning class
    through the one thing asked of it here, [cls.getInternalName()]. *)
Record Method := {
  cls : string;
  slot : Z;
  accessFlags : Flags;
  name : string;
  raw_descriptor : string;
  attrs : list attribute;
  param_types : list string;
  param_bytes : Z;
  num_args : Z;
  return_type : string;
  code : code_slot
}.

(** [AbstractMethodField.get_attribute]: the first attribute of that name,
    [None] for [null]. *)
Definition get_attribute (attrs : list attribute) (name : string)
    : option attribute :=
  List.find (fun attr => String.eqb (getName attr) name) attrs.

(** [AbstractMethodField.get_attributes]. *)
Definition get_attributes (attrs : list attribute) (name : string)
    : list attribute :=
  List.filter (fun attr => String.eqb (getName attr) name) attrs.

(** [s.indexOf(pattern, from)]. *)
Definition indexOf (s pattern : string) (from : nat) : Z :=
  match String.index from pattern s with
  | Some i => Z.of_nat i
  | None => -1
  end.

Section Parse.

Context `{Collaborators}.

Definition getTrappedMethod (clsName methSig : string) : option trap :=
  let clsName := descriptor2typestr clsName in
  match trapped_methods !! clsName with
  | Some table => table !! methSig
  | None => None
  end.

(** [AbstractMethodField.parse], with the subclass's [parse_descriptor]:
    the fields it assigns, and the stream as it leaves it. *)
Definition AbstractMethodField_parse {D}
    (parse_descriptor : Flags -> string -> exn + D)
    (bytes_array : ByteStream) (constant_pool : ConstantPool)
    : exn + (Flags * string * string * D * list attribute * ByteStream) :=
  let '(flags, bytes_array) := getUint16 bytes_array in
  let accessFlags := {| byte := flags |} in
  let '(i, bytes_array) := getUint16 bytes_array in
  let name := utf8_value constant_pool i in
  let '(j, bytes_array) := getUint16 bytes_array in
  let raw_descriptor := utf8_value constant_pool j in
  match parse_descriptor accessFlags raw_descriptor with
  | inl e => inl e
  | inr d =>
      let '(attrs, bytes_array) := makeAttributes bytes_array constant_pool in
      inr (accessFlags, name, raw_descriptor, d, attrs, bytes_array)
  end.

(** [Method.full_signature] *)
Definition full_signature (cls name raw_descriptor : string) : string :=
  ext_classname cls +:+ "::" +:+ name +:+ raw_descriptor.

(** [Method.parse] on a [new Method(cls)]. *)
Definition parse (cls : string)
    (bytes_array : ByteStream) (constant_pool : ConstantPool)
    : exn + (Method * ByteStream) :=
  match AbstractMethodField_parse parse_descriptor bytes_array constant_pool with
  | inl e => inl e
  | inr (accessFlags, name, raw_descriptor, d, attrs, bytes_array) =>
      let sig := full_signature cls name raw_descriptor in
      let clsName := cls in
      let methSig := name +:+ raw_descriptor in
      let '(code, accessFlags) :=
        match getTrappedMethod clsName methSig with
        | Some f =>
            (CodeFunction (Trapped f), setNative true accessFlags)
        | None =>
            if isNative accessFlags then
              if (indexOf sig "::registerNatives()V" 1 <? 0)
                 && (indexOf sig "::initIDs()V" 1 <? 0)
              then (CodeFunction (NativeBinder clsName methSig sig),
                    accessFlags)
              else (CodeFunction Nop, accessFlags)
            else if negb (isAbstract accessFlags) then
              (CodeAttribute (get_attribute attrs "Code"), accessFlags)
            else (CodeUndefined, accessFlags)
        end in
      inr ({| cls := cls;
              slot := -1;
              accessFlags := accessFlags;
              name := name;
              raw_descriptor := raw_descriptor;
              attrs := attrs;
              param_types := d_param_types d;
              param_bytes := d_param_bytes d;
              num_args := d_num_args d;
              return_type := d_return_type d;
              code := code |}, bytes_array)
  end.

End Parse.

Definition getParamWordSize (m : Method) : Z := param_bytes m.

Definition getNumberOfParameters (m : Method) : Z := num_args m.

(** [assert(c)] *)
Definition assert (c : bool) : exn + unit :=
  if c then inr tt else inl AssertionError.

Definition getCodeAttribute (m : Method) : exn + code_slot :=
  match assert (negb (isNative (accessFlags m))
                && negb (isAbstract (accessFlags m))) with
  | inl e => inl e
  | inr _ => inr (code m)
  end.

Definition getNativeFunction (m : Method) : exn + code_slot :=
  match assert (isNative (accessFlags m) && is_function (code m)) with
  | inl e => inl e
  | inr _ => inr (code m)
  end.

Definition isSignaturePolymorphic (m : Method) : bool :=
  String.eqb (cls m) "Ljava/lang/invoke/MethodHandle;"
  && isNative (accessFlags m) && isVarArgs (accessFlags m)
  && String.eqb (raw_descriptor m) "([Ljava/lang/Object;)Ljava/lang/Object;".

(** The [for] loop of [convertArgs]; it gives the final [argIdx]. *)
Fixpoint convertArgs_loop (convertedArgs params : loc)
    (param_types : list string) (argIdx : Z) : H Z :=
  match param_types with
  | [] => mret argIdx
  | p :: rest =>
      v ← array_get params argIdx;
      array_push convertedArgs v;;
      convertArgs_loop convertedArgs params rest (argIdx + param_word p)
  end.

Definition convertArgs (m : Method) (thread : value) (params : loc) : H loc :=
  if isSignaturePolymorphic m then
    array_unshift params thread;;
    mret params
  else
    convertedArgs ← array_new [thread];
    argIdx ← (if negb (isStatic (accessFlags m)) then
                v ← array_get params 0;
                array_push convertedArgs v;;
                mret 1
              else mret 0);
    convertArgs_loop convertedArgs params (param_types m) argIdx;;
    mret convertedArgs.

Definition takeArgs (m : Method) (caller_stack : loc) : H loc :=
  len ← array_length caller_stack;
  let start := len - param_bytes m in
  params ← array_slice caller_stack start;
  len ← array_length caller_stack;
  array_set_length caller_stack (len - param_bytes m);;
  mret params.

(** The interpreter pushing values onto its operand stack, one by one. *)
Fixpoint push_all (stack : loc) (vs : list value) : H unit :=
  match vs with
  | [] => mret tt
  | v :: vs' => array_push stack v;; push_all stack vs'
  end.

(** *** The specification's formulas, for comparison with the code *)

(** Section 3 of the specification: the sum over the parameter types of 2
    for [J] and [D] and 1 otherwise, plus 1 for a receiver. *)
Fixpoint sum_param_words (param_types : list string) : Z :=
  match param_types with
  | [] => 0
  | p :: rest => (if String.eqb p "J" || String.eqb p "D" then 2 else 1)
                 + sum_param_words rest
  end.

Definition spec_paramBytes (static : bool) (param_types : list string) : Z :=
  (if static then 0 else 1) + sum_param_words param_types.

Definition spec_numArgs (static : bool) (param_types : list string) : Z :=
  Z.of_nat (length param_types) + (if static then 0 else 1).

(** [raw[i]] on the contents of an array. *)
Definition js_index (raw : list value) (i : Z) : value :=
  if i <? 0 then Undefined else default Undefined (raw !! Z.to_nat i).

(** Section 4.6 of the specification: the source index of each parameter,
    advancing by 2 after [J] and [D] and by 1 otherwise. *)
Fixpoint source_indices (idx : Z) (param_types : list string) : list Z :=
  match param_types with
  | [] => []
  | p :: rest =>
      idx :: source_indices
               (idx + if String.eqb p "J" || String.eqb p "D" then 2 else 1)
               rest
  end.

Definition spec_convertArgs (static : bool) (param_types : list string)
    (thread : value) (raw : list value) : list value :=
  if static then
    thread :: map (js_index raw) (source_indices 0 param_types)
  else
    thread :: js_index raw 0
      :: map (js_index raw) (source_indices 1 param_types).

End Methods.

(** ** Concrete collaborators, for running the model *)

Module Fixtures.
Import JS.
Local Open Scope Z_scope.

(** Byte values of a binary string. *)
Definition bytes_of (s : string) : list Z :=
  map (fun c => Z.of_N (N_of_ascii c)) (list_ascii_of_string s).

(** A file system with [foo/Bar.class] under both [/a/] and [/jcl/], with
    different contents, and an unreadable [foo/Baz.class] under [/a/]. *)
Definition two_copies : Jvm.FS :=
  {| Jvm.existsSync f :=
       bool_decide (f ∈ ["/a/"; "/jcl/"; "/a//foo/Bar.class";
                         "/jcl//foo/Bar.class"; "/a//foo/Baz.class";
                         "/jcl//foo/Baz.class"]);
     Jvm.readFileSync f :=
       if String.eqb f "/a//foo/Bar.class" then inr "AB"
       else if String.eqb f "/jcl//foo/Bar.class" then inr "CD"
       else if String.eqb f "/jcl//foo/Baz.class" then inr "EF"
       else if String.eqb f "/a//foo/Baz.class" then inl (IoError "EACCES")
       else inl (IoError "ENOENT") |}.

(** A file system where only the directory [/a/] exists. *)
Definition only_a : Jvm.FS :=
  {| Jvm.existsSync f := String.eqb f "/a/";
     Jvm.readFileSync f := inl (IoError "ENOENT") |}.

(** [path.normalize] on paths that are already normal. *)
Definition normalize_id (p : string) : string := p.

Definition search_path : Jvm.root :=
  {| Jvm.classpath := ["/x/"; "/a/"; "/jcl/"];
     Jvm.show_NYI_natives := false;
     Jvm.dump_state := false |}.

(** A stream of 16-bit words, a constant pool of strings, attributes given
    by a count and one name index each, and class names in descriptor
    form [L...;]. *)
Fixpoint take_attributes (n : nat) (bs : list Z) (cp : list string)
    : list Methods.attribute * list Z :=
  match n, bs with
  | S n', i :: bs' =>
      let '(l, r) := take_attributes n' bs' cp in
      ({| Methods.getName := default "" (cp !! Z.to_nat i);
          Methods.body := i |} :: l, r)
  | _, _ => ([], bs)
  end.

Definition words : Methods.Collaborators :=
  {| Methods.ByteStream := list Z;
     Methods.ConstantPool := list string;
     Methods.getUint16 bs :=
       match bs with
       | [] => (0, [])
       | w :: bs' => (w, bs')
       end;
     Methods.utf8_value cp i := default "" (cp !! Z.to_nat i);
     Methods.makeAttributes bs cp :=
       match bs with
       | [] => ([], [])
       | n :: bs' => take_attributes (Z.to_nat n) bs' cp
       end;
     Methods.descriptor2typestr s :=
       match s with
       | String "L" _ => slice_1_m1 s
       | _ => s
       end;
     Methods.ext_classname s :=
       match s with
       | String "L" _ => slice_1_m1 s
       | _ => s
       end |}.

Definition pool : list string :=
  [""; "<clinit>"; "()V"; "Code"; "compareAndSet"; "(II)Z"; "invoke";
   "([Ljava/lang/Object;)Ljava/lang/Object;"; "run"; "(IJLjava/lang/String;[D)V";
   "(Lfoo)V"; "(IX)V"].

(** [java/lang/ref/Reference.<clinit>()V], static: a trapped method. *)
Definition reference_clinit : Methods.Method :=
  {| Methods.cls := "Ljava/lang/ref/Reference;";
     Methods.slot := -1;
     Methods.accessFlags := {| Util.byte := 0x0108 |};
     Methods.name := "<clinit>";
     Methods.raw_descriptor := "()V";
     Methods.attrs := [];
     Methods.param_types := [];
     Methods.param_bytes := 0;
     Methods.num_args := 0;
     Methods.return_type := "V";
     Methods.code := Methods.CodeFunction (Methods.Trapped Methods.Reference_clinit) |}.

(** [foo/Bar.run()V] with both [ACC_NATIVE] and [ACC_ABSTRACT] set. *)
Definition native_abstract_run : Methods.Method :=
  {| Methods.cls := "Lfoo/Bar;";
     Methods.slot := -1;
     Methods.accessFlags := {| Util.byte := 0x0500 |};
     Methods.name := "run";
     Methods.raw_descriptor := "()V";
     Methods.attrs := [];
     Methods.param_types := [];
     Methods.param_bytes := 1;
     Methods.num_args := 1;
     Methods.return_type := "V";
     Methods.code :=
       Methods.CodeFunction
         (Methods.NativeBinder "Lfoo/Bar;" "run()V" "foo/Bar::run()V") |}.

(** [foo/Bar.run(IJLjava/lang/String;[D)V], public, with a [Code]
    attribute. *)
Definition bytecode_run : Methods.Method :=
  {| Methods.cls := "Lfoo/Bar;";
     Methods.slot := -1;
     Methods.accessFlags := {| Util.byte := 0x0001 |};
     Methods.name := "run";
     Methods.raw_descriptor := "(IJLjava/lang/String;[D)V";
     Methods.attrs := [{| Methods.getName := "Code"; Methods.body := 3 |}];
     Methods.param_types := ["I"; "J"; "Ljava/lang/String;"; "[D"];
     Methods.param_bytes := 6;
     Methods.num_args := 5;
     Methods.return_type := "V";
     Methods.code :=
       Methods.CodeAttribute
         (Some {| Methods.getName := "Code"; Methods.body := 3 |}) |}.

(** [java/lang/invoke/MethodHandle.invoke], native and varargs: signature
    polymorphic. *)
Definition method_handle_invoke : Methods.Method :=
  {| Methods.cls := "Ljava/lang/invoke/MethodHandle;";
     Methods.slot := -1;
     Methods.accessFlags := {| Util.byte := 0x0181 |};
     Methods.name := "invoke";
     Methods.raw_descriptor := "([Ljava/lang/Object;)Ljava/lang/Object;";
     Methods.attrs := [];
     Methods.param_types := ["[Ljava/lang/Object;"];
     Methods.param_bytes := 2;
     Methods.num_args := 2;
     Methods.return_type := "Ljava/lang/Object;";
     Methods.code :=
       Methods.CodeFunction
         (Methods.NativeBinder "Ljava/lang/invoke/MethodHandle;"
            "invoke([Ljava/lang/Object;)Ljava/lang/Object;"
            "java/lang/invoke/MethodHandle::invoke([Ljava/lang/Object;)Ljava/lang/Object;") |}.

End Fixtures.

(** ** [src/methods.ts]: fields, reflection and the trapped bodies *)

Module Members.
Import JS Util Methods.
Local Open Scope Z_scope.

(** *** [class Field] *)

Record Field := {
  f_cls : string;
  f_slot : Z;
  f_accessFlags : Flags;
  f_name : string;
  f_raw_descriptor : string;
  f_attrs : list attribute;
  f_type : string
}.

(** [Field.parse_descriptor]: the type is the raw descriptor. *)
Definition Field_parse_descriptor (accessFlags : Flags)
    (raw_descriptor : string) : exn + string :=
  inr raw_descriptor.

(** [parse], inherited from [AbstractMethodField], on a [new Field(cls)]. *)
Definition Field_parse `{Collaborators} (cls : string)
    (bytes_array : ByteStream) (constant_pool : ConstantPool)
    : exn + (Field * ByteStream) :=
  match AbstractMethodField_parse Field_parse_descriptor
          bytes_array constant_pool with
  | inl e => inl e
  | inr (accessFlags, name, raw_descriptor, type, attrs, bytes_array) =>
      inr ({| f_cls := cls;
              f_slot := -1;
              f_accessFlags := accessFlags;
              f_name := name;
              f_raw_descriptor := raw_descriptor;
              f_attrs := attrs;
              f_type := type |}, bytes_array)
  end.

(** The header that [AbstractMethodField.parse] reads with its three
    [getUint16]: the flags, the name, the descriptor and the stream after
    them. *)
Definition header `{Collaborators} (bs : ByteStream) (cp : ConstantPool)
    : Flags * string * string * ByteStream :=
  let r1 := getUint16 bs in
  let r2 := getUint16 r1.2 in
  let r3 := getUint16 r2.2 in
  ({| byte := r1.1 |}, utf8_value cp r2.1, utf8_value cp r3.1, r3.2).

(** [AbstractMethodField.setSlot] on a method. *)
Definition setSlot (slot0 : Z) (m : Method) : Method :=
  {| cls := cls m;
     slot := slot0;
     accessFlags := accessFlags m;
     name := name m;
     raw_descriptor := raw_descriptor m;
     attrs := attrs m;
     param_types := param_types m;
     param_bytes := param_bytes m;
     num_args := num_args m;
     return_type := return_type m;
     code := code m |}.

(** *** [Method.reflector] *)

(** The kind-specific fields of the attributes that [reflector] reads. *)
Class AttributeViews := {
  (** [Signature.sig] *)
  sig : attribute -> string;
  (** [rawBytes] of the annotation attributes *)
  rawBytes : attribute -> list Z;
  (** [Exceptions.exceptions] *)
  exceptions : attribute -> list string;
  (** [catchType] of each of [Code.exceptionHandlers], in order *)
  catchTypes : attribute -> list string
}.

(** The mirror object handed to the callback, by its fields. A class
    object is named by a number. *)
Record mirror := {
  mirror_class : string;
  clazz : Z;
  mirror_name : string;
  parameterTypes : list Z;
  returnType : Z;
  exceptionTypes : list Z;
  modifiers : Z;
  mirror_slot : Z;
  signature : option string;
  annotations : option (list Z);
  annotationDefault : option (list Z);
  parameterAnnotations : option (list Z)
}.

Section Reflector.

Context `{AttributeViews}.

(** [code.exceptionHandlers] for [code = this.code]: reading the property
    of [null] or [undefined] is a [TypeError], and a function has no such
    property, so that taking its [length] is one too. *)
Definition exceptionHandlers (c : code_slot) : exn + list string :=
  match c with
  | CodeAttribute (Some a) => inr (catchTypes a)
  | CodeAttribute None =>
      inl (TypeError "Cannot read property 'exceptionHandlers' of null")
  | CodeUndefined =>
      inl (TypeError "Cannot read property 'exceptionHandlers' of undefined")
  | CodeFunction _ =>
      inl (TypeError "Cannot read property 'length' of undefined")
  end.

(** The descriptors that [reflector] adds for the exception handlers of
    the code attribute [a]. *)
Definition handler_classes (a : attribute) : list string :=
  if (0 <? length (catchTypes a))%nat then
    "Ljava/lang/Throwable;"
      :: List.filter (fun catchType => negb (String.eqb catchType "<any>"))
           (catchTypes a)
  else [].

(** The declared exceptions, none without an [Exceptions] attribute. *)
Definition declared_exceptions (m : Method) : list string :=
  match get_attribute (attrs m) "Exceptions" with
  | Some a => exceptions a
  | None => []
  end.

(** The list [toResolve] that [reflector] hands to [resolveClasses]. *)
Definition toResolve (m : Method) : exn + list string :=
  let exceptionAttr := get_attribute (attrs m) "Exceptions" in
  let hasCode := negb (isNative (accessFlags m))
                 && negb (isAbstract (accessFlags m)) in
  let toResolve0 := [return_type m] in
  match
    (if hasCode then
       match exceptionHandlers (code m) with
       | inl e => inl e
       | inr eh =>
           if (0 <? length eh)%nat then
             inr (toResolve0 ++ ["Ljava/lang/Throwable;"]
                    ++ List.filter
                         (fun catchType => negb (String.eqb catchType "<any>"))
                         eh)
           else inr toResolve0
       end
     else inr toResolve0)
  with
  | inl e => inl e
  | inr toResolve1 =>
      let toResolve2 := toResolve1 ++ param_types m in
      inr (match exceptionAttr with
           | Some a => toResolve2 ++ exceptions a
           | None => toResolve2
           end)
  end.

(** [classes[d].getClassObject(thread)] for each [d], in order; a
    descriptor that [classes] lacks gives [undefined], and the call on it
    is a [TypeError]. *)
Fixpoint class_objects (classes : gmap string Z) (ds : list string)
    : exn + list Z :=
  match ds with
  | [] => inr []
  | d :: ds' =>
      match classes !! d with
      | None =>
          inl (TypeError "Cannot read property 'getClassObject' of undefined")
      | Some o =>
          match class_objects classes ds' with
          | inl e => inl e
          | inr os => inr (o :: os)
          end
      end
  end.

(** The callback that [reflector] gives to [resolveClasses]: what it
    passes on to [cb], [None] for [null]. *)
Definition reflector_resolved (m : Method) (is_constructor : bool)
    (clazz_obj : Z) (classes : option (gmap string Z))
    : exn + option mirror :=
  let typestr := if is_constructor then "Ljava/lang/reflect/Constructor;"
                 else "Ljava/lang/reflect/Method;" in
  let exceptionAttr := get_attribute (attrs m) "Exceptions" in
  let annAttr := get_attribute (attrs m) "RuntimeVisibleAnnotations" in
  let annDefaultAttr := get_attribute (attrs m) "AnnotationDefault" in
  let sigAttr := get_attribute (attrs m) "Signature" in
  let parameterAnnotations0 :=
    get_attribute (attrs m) "RuntimeVisibleParameterAnnotations" in
  match classes with
  | None => inr None
  | Some classes =>
      match class_objects classes (param_types m) with
      | inl e => inl e
      | inr param_type_objs =>
          match
            (match exceptionAttr with
             | Some a => class_objects classes (exceptions a)
             | None => inr []
             end)
          with
          | inl e => inl e
          | inr etype_objs =>
              match classes !! return_type m with
              | None =>
                  inl (TypeError
                         "Cannot read property 'getClassObject' of undefined")
              | Some return_obj =>
                  inr (Some
                    {| mirror_class := typestr;
                       clazz := clazz_obj;
                       mirror_name := name m;
                       parameterTypes := param_type_objs;
                       returnType := return_obj;
                       exceptionTypes := etype_objs;
                       modifiers := byte (accessFlags m);
                       mirror_slot := slot m;
                       signature := sig <$> sigAttr;
                       annotations := rawBytes <$> annAttr;
                       annotationDefault := rawBytes <$> annDefaultAttr;
                       parameterAnnotations :=
                         rawBytes <$> parameterAnnotations0 |})
              end
          end
      end
  end.

(** [Method.reflector] with the loader's [resolveClasses] as a function of
    the descriptors asked for: what [cb] receives. *)
Definition reflector (resolveClasses : list string -> option (gmap string Z))
    (m : Method) (is_constructor : bool) (clazz_obj : Z)
    : exn + option mirror :=
  match toResolve m with
  | inl e => inl e
  | inr ds => reflector_resolved m is_constructor clazz_obj (resolveClasses ds)
  end.

End Reflector.

(** *** The trapped body of [java/nio/Bits.copyToByteArray] *)




End Members.

(** ** More concrete collaborators *)

Module Samples.
Import JS.
Local Open Scope Z_scope.

(** A file system without any file. *)
Definition empty_fs : Jvm.FS :=
  {| Jvm.existsSync f := false;
     Jvm.readFileSync f := inl (IoError "ENOENT") |}.

(** Attribute bodies read as small tables. *)
Definition views : Members.AttributeViews :=
  {| Members.sig a := "TT;";
     Members.rawBytes a := [Methods.body a];
     Members.exceptions a := ["Ljava/io/IOException;"];
     Members.catchTypes a :=
       if Methods.body a =? 3 then ["<any>"; "Ljava/lang/Error;"] else [] |}.

(** A public method [run()V] that is neither native nor abstract and has
    no [Code] attribute. *)
Definition codeless_run : Methods.Method :=
  {| Methods.cls := "Lfoo/Bar;";
     Methods.slot := -1;
     Methods.accessFlags := {| Util.byte := 0x0001 |};
     Methods.name := "run";
     Methods.raw_descriptor := "()V";
     Methods.attrs := [];
     Methods.param_types := [];
     Methods.param_bytes := 1;
     Methods.num_args := 1;
     Methods.return_type := "V";
     Methods.code := Methods.CodeAttribute None |}.

(** [foo/Bar.registerNatives()V], native and static. *)
Definition register_natives : Methods.Method :=
  {| Methods.cls := "Lfoo/Bar;";
     Methods.slot := -1;
     Methods.accessFlags := {| Util.byte := 0x0108 |};
     Methods.name := "registerNatives";
     Methods.raw_descriptor := "()V";
     Methods.attrs := [];
     Methods.param_types := [];
     Methods.param_bytes := 0;
     Methods.num_args := 0;
     Methods.return_type := "V";
     Methods.code := Methods.CodeFunction Methods.Nop |}.

(** [foo/Bar.add(II)I], static, with bytecode. *)
Definition static_add : Methods.Method :=
  {| Methods.cls := "Lfoo/Bar;";
     Methods.slot := -1;
     Methods.accessFlags := {| Util.byte := 0x0009 |};
     Methods.name := "add";
     Methods.raw_descriptor := "(II)I";
     Methods.attrs := [{| Methods.getName := "Code"; Methods.body := 3 |}];
     Methods.param_types := ["I"; "I"];
     Methods.param_bytes := 2;
     Methods.num_args := 2;
     Methods.return_type := "I";
     Methods.code :=
       Methods.CodeAttribute
         (Some {| Methods.getName := "Code"; Methods.body := 3 |}) |}.

Definition pool : list string :=
  [""; "registerNatives"; "()V"; "Code"; "add"; "(II)I"; "run"].

(** What a loader answers after resolving [I], [Throwable] and [Error]. *)
Definition loaded : gmap string Z :=
  {[ "I" := 5; "Ljava/lang/Throwable;" := 6; "Ljava/lang/Error;" := 7 ]}.

End Samples.

(** ** Properties of the class bytes provider *)

Section JvmProperties.
Import JS Jvm.

Variable fs : FS.
Variable bytestr_to_array : string -> list Z.
Variable normalize : string -> string.

Local Abbreviation loop := (read_classfile_loop fs bytestr_to_array).
Local Abbreviation filename := class_filename.

Ltac run_M :=
  unfold read_classfile_body, fs_exists, fs_read, emit, call, throw,
    try_catch, mbind, M_bind, mret, M_ret; simpl.

(** An entry without the file is probed and passed over. *)
Lemma loop_skip cls cb failure_cb p ps :
  existsSync fs (filename p cls) = false ->
  loop cls cb failure_cb (p :: ps)
  = (FsExists (filename p cls) :: (loop cls cb failure_cb ps).1,
     (loop cls cb failure_cb ps).2).
Proof.
  intros Hex. simpl. run_M. rewrite Hex. simpl.
  destruct (loop cls cb failure_cb ps) as [tr r]. reflexivity.
Qed.

(** An entry whose file is read: the bytes go to [cb]; what [cb] throws
    goes to [failure_cb]. Nothing of the later entries is looked at. *)
Lemma loop_hit cls cb failure_cb p ps s :
  existsSync fs (filename p cls) = true ->
  readFileSync fs (filename p cls) = inr s ->
  loop cls cb failure_cb (p :: ps)
  = let f := filename p cls in
    let data := bytestr_to_array s in
    match cb data with
    | Return => ([FsExists f; FsRead f; Cb data], inr tt)
    | Throw e =>
        ([FsExists f; FsRead f; Cb data; FailureCb e],
         match failure_cb e with
         | Return => inr tt
         | Throw e' => inl e'
         end)
    end.
Proof.
  intros Hex Hrd. simpl. run_M. rewrite Hex, Hrd. simpl.
  destruct (cb (bytestr_to_array s)) as [|e]; simpl; [reflexivity|].
  destruct (failure_cb e); reflexivity.
Qed.

(** An entry whose file exists but cannot be read: the error goes to
    [failure_cb] and the search ends. *)
Lemma loop_io_error cls cb failure_cb p ps e :
  existsSync fs (filename p cls) = true ->
  readFileSync fs (filename p cls) = inl e ->
  loop cls cb failure_cb (p :: ps)
  = let f := filename p cls in
    ([FsExists f; FsRead f; FailureCb e],
     match failure_cb e with
     | Return => inr tt
     | Throw e' => inl e'
     end).
Proof.
  intros Hex Hrd. simpl. run_M. rewrite Hex, Hrd. simpl.
  destruct (failure_cb e); reflexivity.
Qed.

(** Entries without the file only add their probes to the log. *)
Lemma loop_skip_prefix cls cb failure_cb pre ps :
  Forall (fun q => existsSync fs (filename q cls) = false) pre ->
  loop cls cb failure_cb (pre ++ ps)
  = (map (fun q => FsExists (filename q cls)) pre
       ++ (loop cls cb failure_cb ps).1,
     (loop cls cb failure_cb ps).2).
Proof.
  induction 1 as [|q pre Hq _ IH].
  - simpl. destruct (loop cls cb failure_cb ps); reflexivity.
  - change ((q :: pre) ++ ps) with (q :: (pre ++ ps)).
    rewrite loop_skip by exact Hq. rewrite IH. reflexivity.
Qed.

Lemma probes_app tr1 tr2 : probes (tr1 ++ tr2) = probes tr1 ++ probes tr2.
Proof. unfold probes. apply omap_app. Qed.

Lemma delivered_app tr1 tr2 :
  delivered (tr1 ++ tr2) = delivered tr1 ++ delivered tr2.
Proof. unfold delivered. apply omap_app. Qed.

Lemma reads_app tr1 tr2 : reads (tr1 ++ tr2) = reads tr1 ++ reads tr2.
Proof. unfold reads. apply omap_app. Qed.

Lemma callbacks_app tr1 tr2 :
  callbacks (tr1 ++ tr2) = callbacks tr1 ++ callbacks tr2.
Proof. unfold callbacks. apply List.filter_app. Qed.

Lemma probes_of_probes (fs' : list string) :
  probes (map FsExists fs') = fs'
  /\ delivered (map FsExists fs') = []
  /\ reads (map FsExists fs') = []
  /\ callbacks (map FsExists fs') = [].
Proof.
  induction fs' as [|f fs' (IH1 & IH2 & IH3 & IH4)]; [done|].
  repeat split; simpl; [|assumption..].
  unfold probes in *. simpl. by rewrite IH1.
Qed.

(** C6. [read_classfile] probes the classpath entries in order and hands
    [cb] the bytes of the first entry under which the class file exists
    (and is read); it probes and reads nothing of the entries after it, so
    of two entries that hold the file the earlier one is delivered. *)
Theorem read_classfile_first_hit st cls cb failure_cb pre p post s :
  classpath st = pre ++ p :: post ->
  Forall (fun q => existsSync fs (filename q (slice_1_m1 cls)) = false) pre ->
  existsSync fs (filename p (slice_1_m1 cls)) = true ->
  readFileSync fs (filename p (slice_1_m1 cls)) = inr s ->
  let tr := (read_classfile fs bytestr_to_array st cls cb failure_cb).1 in
  delivered tr = [bytestr_to_array s]
  /\ probes tr = map (fun q => filename q (slice_1_m1 cls)) (pre ++ [p])
  /\ reads tr = [filename p (slice_1_m1 cls)].
Proof.
  intros Hcp Hpre Hex Hrd. unfold read_classfile. cbv zeta.
  rewrite Hcp, (loop_skip_prefix _ _ _ _ _ Hpre).
  rewrite (loop_hit _ _ _ _ _ _ Hex Hrd). cbv zeta.
  cbn [fst].
  rewrite delivered_app, probes_app, reads_app, map_app.
  rewrite <- (map_map (fun q => filename q (slice_1_m1 cls)) FsExists).
  destruct (probes_of_probes
              (map (fun q => filename q (slice_1_m1 cls)) pre))
    as (-> & -> & -> & _).
  destruct (cb (bytestr_to_array s)); done.
Qed.

(** C7, as the code has it. When [cb] returns normally, [read_classfile]
    invokes exactly one callback, once: [cb] with the bytes when the first
    entry that holds the file is read, [failure_cb] with the I/O error when
    that read raises, [failure_cb] with the no-file error when no entry
    holds the file; and it probes no entry after the first that holds the
    file. *)
Theorem read_classfile_one_callback st cls cb failure_cb :
  (forall data, cb data = Return) ->
  let cls' := slice_1_m1 cls in
  let tr := (read_classfile fs bytestr_to_array st cls cb failure_cb).1 in
  probes tr = map (fun q => filename q cls') (searched fs cls' (classpath st))
  /\ callbacks tr =
     [ match List.find (fun q => existsSync fs (filename q cls'))
               (classpath st) with
       | None =>
           FailureCb (Error ("Error: No file found for class " +:+ cls' +:+ "."))
       | Some p =>
           match readFileSync fs (filename p cls') with
           | inl e => FailureCb e
           | inr s => Cb (bytestr_to_array s)
           end
       end ].
Proof.
  intros Hcb. unfold read_classfile. cbv zeta.
  generalize (slice_1_m1 cls) as c. intros c.
  induction (classpath st) as [|p ps [IHp IHc]].
  - simpl. unfold call. destruct (failure_cb _); done.
  - cbn [searched List.find].
    destruct (existsSync fs (filename p c)) eqn:Hex.
    + destruct (readFileSync fs (filename p c)) as [e|s] eqn:Hrd.
      * rewrite (loop_io_error _ _ _ _ _ _ Hex Hrd). done.
      * rewrite (loop_hit _ _ _ _ _ _ Hex Hrd). cbv zeta.
        rewrite Hcb. done.
    + rewrite (loop_skip _ _ _ _ _ Hex). cbn [fst].
      split.
      * change (probes (?e :: ?t)) with (filename p c :: probes t).
        rewrite IHp. done.
      * exact IHc.
Qed.

Lemma last_char_slash s : last_char (s +:+ "/") = Some "/"%char.
Proof.
  induction s as [|c s IH]; [done|].
  simpl. destruct (s +:+ "/") eqn:E; [|exact IH].
  destruct s; discriminate.
Qed.

Lemma standardize_slash p :
  last_char (standardize normalize p) = Some "/"%char.
Proof.
  unfold standardize. case_bool_decide; simpl; [assumption|].
  apply last_char_slash.
Qed.

(** The loop of [set_classpath] appends, in order, the standardized
    entries that exist. *)
Lemma set_classpath_loop entries st :
  classpath
    (fold_left
       (fun st class_path =>
          let class_path := standardize normalize class_path in
          if existsSync fs class_path
          then {| classpath := classpath st ++ [class_path];
                  show_NYI_natives := show_NYI_natives st;
                  dump_state := dump_state st |}
          else st)
       entries st)
  = classpath st
      ++ List.filter (existsSync fs) (map (standardize normalize) entries).
Proof.
  revert st. induction entries as [|e entries IH]; intros st; simpl.
  - by rewrite app_nil_r.
  - rewrite IH. destruct (existsSync fs (standardize normalize e)); simpl;
      [by rewrite <- app_assoc | done].
Qed.

(** C9, as the code has it. After [set_classpath] the classpath holds, in
    order, the entries of the user classpath split on [:] followed by the
    class library path, each normalized and given a trailing [/], without
    those that do not exist. Every entry ends with [/] and exists. The
    class library path is the last entry when its directory exists. *)
Theorem set_classpath_effective jcl_path user st :
  let entries :=
    map (standardize normalize) (split ":"%char user ++ [jcl_path]) in
  let cp := classpath (set_classpath fs normalize jcl_path user st) in
  cp = List.filter (existsSync fs) entries
  /\ Forall (fun p => last_char p = Some "/"%char
                      /\ existsSync fs p = true) cp
  /\ (existsSync fs (standardize normalize jcl_path) = true ->
      last cp = Some (standardize normalize jcl_path)).
Proof.
  cbv zeta. unfold set_classpath. cbv zeta.
  rewrite set_classpath_loop. cbn [classpath app].
  split; [reflexivity|]. split.
  - apply Forall_forall. intros p Hp.
    apply list_elem_of_In, List.filter_In in Hp as [Hin Hex].
    split; [|exact Hex].
    apply List.in_map_iff in Hin as (q & <- & _).
    apply standardize_slash.
  - intros Hex. rewrite map_app, List.filter_app. simpl. rewrite Hex.
    apply last_snoc.
Qed.

End JvmProperties.

(** C6 at a classpath where both [/a/] and [/jcl/] hold [foo/Bar.class]. *)
Lemma read_classfile_first_hit_witness :
  let tr :=
    (Jvm.read_classfile Fixtures.two_copies Fixtures.bytes_of
       Fixtures.search_path "Lfoo/Bar;"
       (fun _ => JS.Return) (fun _ => JS.Return)).1 in
  Jvm.delivered tr = [Fixtures.bytes_of "AB"]
  /\ Jvm.probes tr = ["/x//foo/Bar.class"; "/a//foo/Bar.class"]
  /\ Jvm.reads tr = ["/a//foo/Bar.class"].
Proof.
  apply (read_classfile_first_hit Fixtures.two_copies Fixtures.bytes_of
           Fixtures.search_path "Lfoo/Bar;"
           (fun _ => JS.Return) (fun _ => JS.Return)
           ["/x/"] "/a/" ["/jcl/"] "AB").
  - reflexivity.
  - repeat constructor.
  - reflexivity.
  - reflexivity.
Defined.

(** C7 as stated fails: a [cb] that throws has its exception caught by the
    [try] around it, and [failure_cb] is invoked as well. *)
Lemma read_classfile_both_callbacks :
  Jvm.callbacks
    (Jvm.read_classfile Fixtures.two_copies Fixtures.bytes_of
       Fixtures.search_path "Lfoo/Bar;"
       (fun _ => JS.Throw (JS.Error "bad class file"))
       (fun _ => JS.Return)).1
  = [Jvm.Cb [65; 66]%Z; Jvm.FailureCb (JS.Error "bad class file")].
Proof. reflexivity. Qed.

(** C7 at the same classpath, with callbacks that return. *)
Lemma read_classfile_one_callback_witness :
  Jvm.callbacks
    (Jvm.read_classfile Fixtures.two_copies Fixtures.bytes_of
       Fixtures.search_path "Lfoo/Baz;"
       (fun _ => JS.Return) (fun _ => JS.Return)).1
  = [Jvm.FailureCb (JS.IoError "EACCES")].
Proof.
  apply (read_classfile_one_callback Fixtures.two_copies Fixtures.bytes_of
           Fixtures.search_path "Lfoo/Baz;"
           (fun _ => JS.Return) (fun _ => JS.Return)).
  reflexivity.
Defined.

(** C9 as stated fails: where the class library directory does not exist,
    it is filtered out like any other entry and is not the last entry. *)
Lemma set_classpath_jcl_dropped :
  let st :=
    Jvm.set_classpath Fixtures.only_a Fixtures.normalize_id
      "/jcl" "/a" Jvm.root_init in
  Jvm.classpath st = ["/a/"]
  /\ last (Jvm.classpath st) <> Some "/jcl/"
  /\ last (Jvm.classpath st) <> Some "/jcl".
Proof. repeat split; discriminate. Qed.

(** ** Properties of the access flags and of the descriptor reader *)

Section DescriptorProperties.
Import JS Util Methods.
Local Open Scope Z_scope.

(** Setting one bit leaves the test of another bit alone. *)
Lemma land_lor_other_bit b i j :
  0 <= i -> 0 <= j -> i <> j ->
  Z.land (Z.lor b (2 ^ i)) (2 ^ j) = Z.land b (2 ^ j).
Proof.
  intros Hi Hj Hij. apply Z.bits_inj'. intros n Hn.
  rewrite !Z.land_spec, Z.lor_spec, !Z.pow2_bits_eqb by assumption.
  destruct (Z.eqb_spec i n), (Z.eqb_spec j n); subst;
    rewrite ?orb_true_r, ?orb_false_r, ?andb_false_r; congruence.
Qed.

(** Setting a bit makes its test succeed. *)
Lemma land_lor_same_bit b i :
  0 <= i -> Z.land (Z.lor b (2 ^ i)) (2 ^ i) = 2 ^ i.
Proof.
  intros Hi. apply Z.bits_inj'. intros n Hn.
  rewrite !Z.land_spec, Z.lor_spec, !Z.pow2_bits_eqb by assumption.
  destruct (Z.eqb_spec i n); rewrite ?orb_true_r, ?andb_false_r; done.
Qed.

Lemma isNative_setNative f : isNative (setNative true f) = true.
Proof.
  unfold isNative, setNative, ACC_NATIVE. simpl.
  change 256 with (2 ^ 8). by rewrite land_lor_same_bit.
Qed.

Lemma isStatic_setNative f : isStatic (setNative true f) = isStatic f.
Proof.
  unfold isStatic, setNative, ACC_NATIVE, ACC_STATIC. simpl.
  change 256 with (2 ^ 8). change 8 with (2 ^ 3) at 2 3.
  by rewrite land_lor_other_bit.
Qed.

Lemma isAbstract_setNative f : isAbstract (setNative true f) = isAbstract f.
Proof.
  unfold isAbstract, setNative, ACC_NATIVE, ACC_ABSTRACT. simpl.
  change 256 with (2 ^ 8). change 1024 with (2 ^ 10).
  by rewrite land_lor_other_bit.
Qed.

(** The loop of [parse_descriptor], one step unfolded. *)
Lemma descriptor_loop_unfold acc carr :
  descriptor_loop acc carr =
  match carr2descriptor carr with
  | inl e => inl e
  | inr (None, _) => inr acc
  | inr (Some EmptyString, _) => inr acc
  | inr (Some f, rest) => descriptor_loop (acc ++ [f]) rest
  end.
Proof.
  funelim (descriptor_loop acc carr);
    match goal with E : carr2descriptor _ = _ |- _ => by rewrite E end.
Qed.

Lemma read_class_name_sound carr nm r :
  read_class_name carr = Some (nm, r) ->
  exists name, nm = name ++ [";"%char] /\ (";"%char ∉ name)
               /\ carr = nm ++ r.
Proof.
  revert nm r. induction carr as [|c carr IH]; intros nm r Hr; simpl in Hr;
    [discriminate|].
  destruct (Ascii.eqb_spec c ";") as [->|Hc].
  - injection Hr as <- <-. exists []. repeat split. apply not_elem_of_nil.
  - destruct (read_class_name carr) as [[nm' r']|]; simpl in Hr;
      [|discriminate].
    injection Hr as <- <-.
    destruct (IH _ _ eq_refl) as (name & -> & Hname & ->).
    exists (c :: name). repeat split.
    rewrite not_elem_of_cons. split; [congruence|assumption].
Qed.

(** A token handed out by [carr2descriptor] is a token of the grammar, and
    the array is left with exactly what followed it. *)
Lemma carr2descriptor_sound carr t rest :
  carr2descriptor carr = inr (Some t, rest) ->
  token (list_ascii_of_string t)
  /\ carr = list_ascii_of_string t ++ rest.
Proof.
  revert t rest. induction carr as [|c carr IH]; intros t rest Hc;
    simpl in Hc; [discriminate|].
  destruct (is_primitive c) eqn:Hp.
  { injection Hc as <- <-. split; [by constructor|done]. }
  destruct (Ascii.eqb_spec c "L") as [->|_].
  { destruct (read_class_name carr) as [[nm r]|] eqn:Hr; [|discriminate].
    injection Hc as <- <-.
    apply read_class_name_sound in Hr as (name & -> & Hname & ->).
    simpl. rewrite list_ascii_of_string_of_list_ascii.
    split; [by constructor|done]. }
  destruct (Ascii.eqb_spec c "[") as [->|_]; [|discriminate].
  destruct (carr2descriptor carr) as [e|[[t'|] r]]; try discriminate.
  injection Hc as <- <-.
  destruct (IH _ _ eq_refl) as [Htok ->].
  split; [by constructor|done].
Qed.

(** [carr2descriptor] gives [null] on the empty array only. *)
Lemma carr2descriptor_null carr rest :
  carr2descriptor carr = inr (None, rest) -> carr = [].
Proof.
  destruct carr as [|c carr]; [done|]. simpl.
  destruct (is_primitive c); [discriminate|].
  destruct (Ascii.eqb c "L");
    [destruct (read_class_name carr) as [[? ?]|]; discriminate|].
  destruct (Ascii.eqb c "["); [|discriminate].
  destruct (carr2descriptor carr) as [?|[[?|] ?]]; discriminate.
Qed.

(** Its only failure is [BadDescriptor]. *)
Lemma carr2descriptor_error carr e :
  carr2descriptor carr = inl e -> exists rest, e = BadDescriptor rest.
Proof.
  revert e. induction carr as [|c carr IH]; intros e; simpl; [discriminate|].
  destruct (is_primitive c); [discriminate|].
  destruct (Ascii.eqb c "L").
  { destruct (read_class_name carr) as [[? ?]|]; [discriminate|].
    intros [= <-]. eauto. }
  destruct (Ascii.eqb c "["); [|intros [= <-]; eauto].
  destruct (carr2descriptor carr) as [e'|[[?|] ?]]; [|discriminate|].
  - intros [= <-]. by apply IH.
  - intros [= <-]. eauto.
Qed.

(** When the loop ends normally, the parameter types it collected are
    tokens, and put end to end they are the whole region: nothing is left
    out. *)
Lemma descriptor_loop_sound carr : forall acc l,
  descriptor_loop acc carr = inr l ->
  exists toks,
    l = acc ++ toks
    /\ Forall (fun t => token (list_ascii_of_string t)) toks
    /\ concat (map list_ascii_of_string toks) = carr.
Proof.
  induction carr as [carr IH] using (induction_ltof1 _ (@length ascii)).
  unfold ltof in IH. intros acc l. rewrite descriptor_loop_unfold.
  destruct (carr2descriptor carr) as [e|[[t|] rest]] eqn:Hc; [discriminate|..].
  - destruct (carr2descriptor_sound _ _ _ Hc) as [Htok ->].
    destruct t as [|a t]; [inversion Htok|].
    intros Hl. apply IH in Hl as (toks & -> & Htoks & <-).
    + exists (String a t :: toks). rewrite <- app_assoc.
      repeat split. by constructor.
    + rewrite length_app. simpl. lia.
  - intros [= <-]. apply carr2descriptor_null in Hc as ->.
    exists []. by rewrite app_nil_r.
Qed.

Lemma descriptor_loop_error carr : forall acc e,
  descriptor_loop acc carr = inl e -> exists rest, e = BadDescriptor rest.
Proof.
  induction carr as [carr IH] using (induction_ltof1 _ (@length ascii)).
  unfold ltof in IH. intros acc e. rewrite descriptor_loop_unfold.
  destruct (carr2descriptor carr) as [e'|[[t|] rest]] eqn:Hc.
  - intros [= <-]. by eapply carr2descriptor_error.
  - destruct (carr2descriptor_sound _ _ _ Hc) as [Htok ->].
    destruct t as [|a t]; [discriminate|].
    apply IH. rewrite length_app. simpl. lia.
  - discriminate.
Qed.

Lemma read_class_name_complete name rest :
  ";"%char ∉ name ->
  read_class_name (name ++ ";"%char :: rest) = Some (name ++ [";"%char], rest).
Proof.
  induction name as [|c name IH]; intros Hn; simpl; [done|].
  apply not_elem_of_cons in Hn as [Hc Hn].
  destruct (Ascii.eqb_spec c ";"); [congruence|].
  by rewrite IH.
Qed.

(** Conversely, [carr2descriptor] reads every token of the grammar. *)
Lemma carr2descriptor_complete tok : token tok -> forall rest,
  carr2descriptor (tok ++ rest) = inr (Some (string_of_list_ascii tok), rest).
Proof.
  induction 1 as [c Hc|name Hname|t Ht IH]; intros rest.
  - simpl. by rewrite Hc.
  - simpl. rewrite <- app_assoc. simpl.
    by rewrite read_class_name_complete.
  - simpl. by rewrite IH.
Qed.

(** And the loop accepts every well-formed parameter region. *)
Lemma descriptor_loop_complete toks : forall acc,
  Forall token toks ->
  descriptor_loop acc (concat toks)
  = inr (acc ++ map string_of_list_ascii toks).
Proof.
  induction toks as [|tok toks IH]; intros acc Htoks.
  - rewrite descriptor_loop_unfold. simpl. by rewrite app_nil_r.
  - apply Forall_cons in Htoks as [Htok Htoks].
    rewrite descriptor_loop_unfold. simpl concat.
    rewrite carr2descriptor_complete by exact Htok.
    destruct tok as [|c tok]; [inversion Htok|].
    simpl string_of_list_ascii. rewrite IH by exact Htoks.
    by rewrite <- app_assoc.
Qed.

Lemma well_formed_params_accepted region :
  well_formed_params region -> exists l, descriptor_loop [] region = inr l.
Proof.
  intros (toks & Htoks & <-). eexists. by apply descriptor_loop_complete.
Qed.

(** The [for] loop that sums the parameter words computes the
    specification's sum. *)
Lemma fold_param_words l : forall acc,
  fold_left (fun acc p => acc + param_word p) l acc
  = acc + sum_param_words l.
Proof.
  induction l as [|p l IH]; intros acc; simpl; [lia|].
  rewrite IH. unfold param_word.
  destruct (String.eqb p "D") eqn:HD, (String.eqb p "J") eqn:HJ; simpl; lia.
Qed.

Lemma parse_descriptor_fields flags raw d :
  parse_descriptor flags raw = inr d ->
  d_param_bytes d = spec_paramBytes (isStatic flags) (d_param_types d)
  /\ d_num_args d = spec_numArgs (isStatic flags) (d_param_types d).
Proof.
  unfold parse_descriptor.
  destruct (descriptor_regex raw) as [[ps rs]|]; [|discriminate].
  destruct (descriptor_loop [] ps) as [e|l]; [discriminate|].
  intros [= <-]. simpl. rewrite fold_param_words.
  unfold spec_paramBytes, spec_numArgs.
  destruct (isStatic flags); simpl; lia.
Qed.

(** C8. A descriptor whose parameter region is not a sequence of complete
    tokens (a token is cut short, or starts with an unknown character) makes
    the decoder fail with [BadDescriptor]; it never returns a shortened
    list of parameter types. *)
Theorem parse_descriptor_rejects_malformed flags raw region ret :
  descriptor_regex raw = Some (region, ret) ->
  ~ well_formed_params region ->
  exists rest, parse_descriptor flags raw = inl (BadDescriptor rest).
Proof.
  intros Hre Hbad. unfold parse_descriptor. rewrite Hre.
  destruct (descriptor_loop [] region) as [e|l] eqn:Hl.
  - apply descriptor_loop_error in Hl as [rest ->]. eauto.
  - exfalso. apply Hbad.
    apply descriptor_loop_sound in Hl as (toks & _ & Htoks & Hcat).
    exists (map list_ascii_of_string toks). split; [|exact Hcat].
    apply Forall_forall. intros t Ht.
    apply list_elem_of_fmap in Ht as (t' & -> & Ht').
    rewrite Forall_forall in Htoks. by apply Htoks.
Qed.

End DescriptorProperties.

(** ** Properties of the array store *)

Section StoreProperties.
Import JS Util Methods.
Local Open Scope Z_scope.

Lemma bind_run {A B} (m : H A) (f : A -> H B) h x h' :
  m h = (inr x, h') -> (m ≫= f) h = f x h'.
Proof. intros Hm. unfold mbind, H_bind. by rewrite Hm. Qed.

Lemma array_contents_run a l (h : heap) :
  h !! a = Some l -> array_contents a h = (inr l, h).
Proof. intros Ha. unfold array_contents. by rewrite Ha. Qed.

Lemma array_length_run a l (h : heap) :
  h !! a = Some l -> array_length a h = (inr (Z.of_nat (length l)), h).
Proof.
  intros Ha. unfold array_length.
  by rewrite (bind_run _ _ _ _ _ (array_contents_run _ _ _ Ha)).
Qed.

Lemma array_get_run a i l (h : heap) :
  h !! a = Some l -> array_get a i h = (inr (js_index l i), h).
Proof.
  intros Ha. unfold array_get.
  by rewrite (bind_run _ _ _ _ _ (array_contents_run _ _ _ Ha)).
Qed.

Lemma array_push_run a v l (h : heap) :
  h !! a = Some l -> array_push a v h = (inr tt, <[a := l ++ [v]]> h).
Proof.
  intros Ha. unfold array_push.
  by rewrite (bind_run _ _ _ _ _ (array_contents_run _ _ _ Ha)).
Qed.

Lemma array_unshift_run a v l (h : heap) :
  h !! a = Some l -> array_unshift a v h = (inr tt, <[a := v :: l]> h).
Proof.
  intros Ha. unfold array_unshift.
  by rewrite (bind_run _ _ _ _ _ (array_contents_run _ _ _ Ha)).
Qed.

Lemma array_slice_run a start l (h : heap) :
  h !! a = Some l ->
  0 <= start <= Z.of_nat (length l) ->
  array_slice a start h = (inr (length h), h ++ [drop (Z.to_nat start) l]).
Proof.
  intros Ha Hs. unfold array_slice.
  rewrite (bind_run _ _ _ _ _ (array_contents_run _ _ _ Ha)).
  cbv zeta. destruct (Z.ltb_spec start 0); [lia|].
  by rewrite Z.min_l by lia.
Qed.

Lemma array_set_length_run a n l (h : heap) :
  h !! a = Some l ->
  0 <= n <= Z.of_nat (length l) ->
  array_set_length a n h = (inr tt, <[a := take (Z.to_nat n) l]> h).
Proof.
  intros Ha Hn. unfold array_set_length.
  rewrite (bind_run _ _ _ _ _ (array_contents_run _ _ _ Ha)).
  destruct (Z.ltb_spec n 0); [lia|].
  replace (Z.to_nat n - length l)%nat with 0%nat by lia.
  simpl. by rewrite app_nil_r.
Qed.

(** Pushing values one by one appends them all. *)
Lemma push_all_run stack vs : forall S (h : heap),
  h !! stack = Some S ->
  push_all stack vs h = (inr tt, <[stack := S ++ vs]> h).
Proof.
  induction vs as [|v vs IH]; intros S h Hs; simpl.
  - rewrite app_nil_r, list_insert_id by exact Hs. done.
  - rewrite (bind_run _ _ _ _ _ (array_push_run _ v _ _ Hs)).
    rewrite (IH (S ++ [v])).
    + by rewrite list_insert_insert_eq, <- app_assoc.
    + apply list_lookup_insert_eq. by eapply lookup_lt_Some.
Qed.

Lemma source_index_step p :
  param_word p = if String.eqb p "J" || String.eqb p "D" then 2 else 1.
Proof. unfold param_word. by rewrite orb_comm. Qed.

(** The loop of [convertArgs] appends to [convertedArgs] the values of
    [params] at the source indices, and touches nothing else. *)
Lemma convertArgs_loop_run convertedArgs params raw ptypes :
  forall argIdx acc (h : heap),
  convertedArgs <> params ->
  h !! params = Some raw ->
  h !! convertedArgs = Some acc ->
  exists argIdx',
    convertArgs_loop convertedArgs params ptypes argIdx h
    = (inr argIdx',
       <[convertedArgs :=
           acc ++ map (js_index raw) (source_indices argIdx ptypes)]> h).
Proof.
  induction ptypes as [|p ptypes IH]; intros argIdx acc h Hne Hp Hc; simpl.
  - exists argIdx. rewrite app_nil_r, list_insert_id by exact Hc. done.
  - rewrite (bind_run _ _ _ _ _ (array_get_run _ argIdx _ _ Hp)).
    rewrite (bind_run _ _ _ _ _ (array_push_run _ (js_index raw argIdx) _ _ Hc)).
    destruct (IH (argIdx + param_word p) (acc ++ [js_index raw argIdx])
                (<[convertedArgs := acc ++ [js_index raw argIdx]]> h))
      as [argIdx' ->].
    + exact Hne.
    + by rewrite list_lookup_insert_ne.
    + apply list_lookup_insert_eq. by eapply lookup_lt_Some.
    + exists argIdx'.
      by rewrite list_insert_insert_eq, <- app_assoc, source_index_step.
Qed.

(** [convertArgs] on a signature polymorphic method: [thread] goes in
    front of the caller's array, which is what is returned. *)
Lemma convertArgs_polymorphic_run m thread params raw (h : heap) :
  isSignaturePolymorphic m = true ->
  h !! params = Some raw ->
  convertArgs m thread params h = (inr params, <[params := thread :: raw]> h).
Proof.
  intros Hsp Hp. unfold convertArgs. rewrite Hsp.
  by rewrite (bind_run _ _ _ _ _ (array_unshift_run _ thread _ _ Hp)).
Qed.

(** [convertArgs] on any other method: the result is a new array at the
    end of the store, and the store up to there is as it was. *)
Lemma convertArgs_marshal_run m thread params raw (h : heap) :
  isSignaturePolymorphic m = false ->
  h !! params = Some raw ->
  convertArgs m thread params h
  = (inr (length h),
     h ++ [spec_convertArgs (isStatic (accessFlags m)) (param_types m)
             thread raw]).
Proof.
  intros Hsp Hp. unfold convertArgs. rewrite Hsp.
  assert (Hlt : (params < length h)%nat) by by eapply lookup_lt_Some.
  assert (Hne : length h <> params) by lia.
  assert (Hp' : forall x : list value, (h ++ [x]) !! params = Some raw)
    by (intros x; by rewrite lookup_app_l).
  assert (Hc : forall x : list value, (h ++ [x]) !! length h = Some x)
    by (intros x; by rewrite list_lookup_middle).
  assert (Hins : forall x y : list value,
             <[length h := y]> (h ++ [x]) = h ++ [y]).
  { intros x y. rewrite insert_app_r_alt by lia.
    by rewrite Nat.sub_diag. }
  unfold array_new at 1. unfold mbind at 1, H_bind at 1.
  unfold spec_convertArgs.
  destruct (isStatic (accessFlags m)); simpl negb; cbv iota.
  - unfold mbind at 1, H_bind at 1, mret at 1, H_ret at 1.
    destruct (convertArgs_loop_run (length h) params raw (param_types m)
                0 [thread] (h ++ [[thread]]) Hne (Hp' _) (Hc _))
      as [argIdx' Hrun].
    rewrite (bind_run _ _ _ _ _ Hrun). by rewrite Hins.
  - rewrite (bind_run _ _ _ 1 (h ++ [[thread; js_index raw 0]])).
    + destruct (convertArgs_loop_run (length h) params raw (param_types m)
                  1 [thread; js_index raw 0]
                  (h ++ [[thread; js_index raw 0]]) Hne (Hp' _) (Hc _))
        as [argIdx' Hrun].
      rewrite (bind_run _ _ _ _ _ Hrun). by rewrite Hins.
    + rewrite (bind_run _ _ _ _ _ (array_get_run _ 0 _ _ (Hp' _))).
      rewrite (bind_run _ _ _ _ _ (array_push_run _ _ _ _ (Hc _))).
      by rewrite Hins.
Qed.

End StoreProperties.

(** ** Properties of [Method.parse] and of the accessors *)

Section ParseProperties.
Import JS Util Methods.
Local Open Scope Z_scope.

Context `{Collaborators}.

(** What [parse] leaves in the method, by the branch of the resolver. *)
Lemma parse_inv cls0 bs cp m bs' :
  parse cls0 bs cp = inr (m, bs') ->
  exists flags d,
    cls m = cls0
    /\ parse_descriptor flags (raw_descriptor m) = inr d
    /\ param_types m = d_param_types d
    /\ param_bytes m = d_param_bytes d
    /\ num_args m = d_num_args d
    /\ match getTrappedMethod cls0 (name m +:+ raw_descriptor m) with
       | Some f =>
           code m = CodeFunction (Trapped f)
           /\ accessFlags m = setNative true flags
       | None =>
           accessFlags m = flags
           /\ if isNative flags then is_function (code m) = true
              else if isAbstract flags then code m = CodeUndefined
              else code m = CodeAttribute (get_attribute (attrs m) "Code")
       end.
Proof.
  unfold parse, AbstractMethodField_parse.
  destruct (getUint16 bs) as [flags bs1].
  destruct (getUint16 bs1) as [i bs2].
  destruct (getUint16 bs2) as [j bs3].
  destruct (parse_descriptor _ _) as [e|d] eqn:Hd; [discriminate|].
  destruct (makeAttributes bs3 cp) as [ats bs4].
  destruct (getTrappedMethod cls0 _) as [f|] eqn:Ht.
  - intros [= <- <-]. exists {| byte := flags |}, d. simpl.
    rewrite Ht. done.
  - destruct (isNative {| byte := flags |}) eqn:Hn.
    + destruct (_ && _); intros [= <- <-];
        exists {| byte := flags |}, d; simpl; rewrite Ht, Hn; done.
    + destruct (isAbstract {| byte := flags |}) eqn:Ha; simpl;
        intros [= <- <-]; exists {| byte := flags |}, d; simpl;
        rewrite Ht, Hn, Ha; done.
Qed.

(** After [parse], [param_bytes] and [num_args] are the specification's
    formulas on the method's own flags and parameter types. *)
Lemma parse_sizes cls0 bs cp m bs' :
  parse cls0 bs cp = inr (m, bs') ->
  param_bytes m = spec_paramBytes (isStatic (accessFlags m)) (param_types m)
  /\ num_args m = spec_numArgs (isStatic (accessFlags m)) (param_types m).
Proof.
  intros Hp. apply parse_inv in Hp
    as (flags & d & _ & Hd & -> & -> & -> & Hcode).
  apply parse_descriptor_fields in Hd as [-> ->].
  assert (isStatic (accessFlags m) = isStatic flags) as ->; [|done].
  destruct (getTrappedMethod _ _).
  - destruct Hcode as [_ ->]. apply isStatic_setNative.
  - by destruct Hcode as [-> _].
Qed.

(** After [parse], a native method has a function as its code. *)
Lemma parse_native_function cls0 bs cp m bs' :
  parse cls0 bs cp = inr (m, bs') ->
  isNative (accessFlags m) = true -> is_function (code m) = true.
Proof.
  intros Hp Hn. apply parse_inv in Hp
    as (flags & d & _ & _ & _ & _ & _ & Hcode).
  destruct (getTrappedMethod _ _).
  - by destruct Hcode as [-> _].
  - destruct Hcode as [<- Hc]. by rewrite Hn in Hc.
Qed.

(** C1. A parsed method whose class and signature are in the table of
    trapped methods is native, has the trap function as its code, and
    [getNativeFunction] returns that function. *)
Theorem parse_trap_forces_native cls0 bs cp m bs' f :
  parse cls0 bs cp = inr (m, bs') ->
  getTrappedMethod (cls m) (name m +:+ raw_descriptor m) = Some f ->
  isNative (accessFlags m) = true
  /\ code m = CodeFunction (Trapped f)
  /\ getNativeFunction m = inr (CodeFunction (Trapped f)).
Proof.
  intros Hp Ht. apply parse_inv in Hp
    as (flags & d & Hcls & _ & _ & _ & _ & Hcode).
  rewrite Hcls in Ht. rewrite Ht in Hcode. destruct Hcode as [Hc Hf].
  assert (Hn : isNative (accessFlags m) = true)
    by (rewrite Hf; apply isNative_setNative).
  repeat split; [exact Hn|exact Hc|].
  unfold getNativeFunction. by rewrite Hn, Hc.
Qed.

(** C2, as the code has it. For a parsed method, [getNativeFunction]
    succeeds exactly when the method is native (trapped methods included),
    and then its code is a function; [getCodeAttribute] succeeds exactly
    when the method is neither native nor abstract. So the two never both
    succeed, one of them succeeds when the method is not abstract, and both
    fail on an abstract method that is not native. *)
Theorem parse_code_variant cls0 bs cp m bs' :
  parse cls0 bs cp = inr (m, bs') ->
  (succeeds (getNativeFunction m) <-> isNative (accessFlags m) = true)
  /\ (isNative (accessFlags m) = true -> is_function (code m) = true)
  /\ (succeeds (getCodeAttribute m) <->
      isNative (accessFlags m) = false /\ isAbstract (accessFlags m) = false)
  /\ ~ (succeeds (getNativeFunction m) /\ succeeds (getCodeAttribute m))
  /\ (isAbstract (accessFlags m) = false ->
      succeeds (getNativeFunction m) \/ succeeds (getCodeAttribute m))
  /\ (isAbstract (accessFlags m) = true ->
      isNative (accessFlags m) = false ->
      getNativeFunction m = inl AssertionError
      /\ getCodeAttribute m = inl AssertionError).
Proof.
  intros Hp. pose proof (parse_native_function _ _ _ _ _ Hp) as Hfun.
  unfold succeeds, getNativeFunction, getCodeAttribute, assert.
  destruct (isNative (accessFlags m)) eqn:Hn;
    destruct (isAbstract (accessFlags m)) eqn:Ha;
    rewrite ?Hfun by reflexivity; simpl;
    repeat split; try intros [? ?]; intros;
    repeat match goal with
           | E : exists _, _ |- _ => destruct E
           | E : _ /\ _ |- _ => destruct E
           end;
    try discriminate; eauto.
Qed.

(** C3. For a method whose descriptor [parse_descriptor] accepted,
    [getParamWordSize] is the sum over the parameter types of 2 for [J] and
    [D] and 1 otherwise, plus 1 when the method is not static, and
    [getNumberOfParameters] is the number of parameter types, plus 1 when
    the method is not static. *)
Theorem parse_param_word_size cls0 bs cp m bs' :
  parse cls0 bs cp = inr (m, bs') ->
  getParamWordSize m
  = (if isStatic (accessFlags m) then 0 else 1)
    + sum_param_words (param_types m)
  /\ getNumberOfParameters m
     = Z.of_nat (length (param_types m))
       + (if isStatic (accessFlags m) then 0 else 1).
Proof. intros Hp. exact (parse_sizes _ _ _ _ _ Hp). Qed.

Lemma source_indices_length ps : forall idx,
  length (source_indices idx ps) = length ps.
Proof. induction ps as [|p ps IH]; intros idx; simpl; [done|by rewrite IH]. Qed.

Lemma spec_convertArgs_length static ps thread raw :
  Z.of_nat (length (spec_convertArgs static ps thread raw))
  = 1 + spec_numArgs static ps.
Proof.
  unfold spec_convertArgs, spec_numArgs.
  destruct static; simpl length;
    rewrite length_map, source_indices_length; lia.
Qed.

(** C4. On a signature polymorphic method [convertArgs] returns
    [thread] followed by the raw parameters, [1 + |rawParams|] values. On
    any other method it returns [thread], then [rawParams[0]] when the
    method is not static, then for each parameter type the raw parameter at
    a source index that advances by 2 after [J] and [D] and by 1 otherwise:
    [1 + numArgs] values. *)
Theorem convertArgs_result cls0 bs cp m bs' thread params raw (h : heap) :
  parse cls0 bs cp = inr (m, bs') ->
  h !! params = Some raw ->
  exists r h' out,
    convertArgs m thread params h = (inr r, h')
    /\ h' !! r = Some out
    /\ if isSignaturePolymorphic m
       then out = thread :: raw
            /\ Z.of_nat (length out) = 1 + Z.of_nat (length raw)
       else out = spec_convertArgs (isStatic (accessFlags m))
                    (param_types m) thread raw
            /\ Z.of_nat (length out) = 1 + getNumberOfParameters m.
Proof.
  intros Hp Hraw. destruct (isSignaturePolymorphic m) eqn:Hsp.
  - eexists _, _, _. split; [by apply convertArgs_polymorphic_run|].
    split; [apply list_lookup_insert_eq; by eapply lookup_lt_Some|].
    split; [done|]. simpl length. lia.
  - eexists _, _, _. split; [by apply convertArgs_marshal_run|].
    split; [by rewrite list_lookup_middle|].
    split; [done|]. rewrite spec_convertArgs_length.
    apply parse_sizes in Hp as [_ Hn]. unfold getNumberOfParameters.
    by rewrite Hn.
Qed.

End ParseProperties.

Section MarshalProperties.
Import JS Util Methods.
Local Open Scope Z_scope.

(** C5. Pushing [paramBytes] values onto a caller stack and then calling
    [takeArgs] gives a new array with exactly those values, in order, and
    leaves the caller stack, truncated in place, with its original
    contents; no other array changes. *)
Theorem takeArgs_restores m stack S pushed (h : heap) :
  h !! stack = Some S ->
  Z.of_nat (length pushed) = getParamWordSize m ->
  exists r h1 h',
    push_all stack pushed h = (inr tt, h1)
    /\ takeArgs m stack h1 = (inr r, h')
    /\ h' !! r = Some pushed
    /\ h' !! stack = Some S
    /\ h1 !! r = None
    /\ forall a, a <> r -> a <> stack -> h' !! a = h !! a.
Proof.
  intros Hs Hlen. unfold getParamWordSize in Hlen.
  assert (Hlt : (stack < length h)%nat) by by eapply lookup_lt_Some.
  set (h1 := <[stack := S ++ pushed]> h).
  assert (Hs1 : h1 !! stack = Some (S ++ pushed))
    by by apply list_lookup_insert_eq.
  assert (Hl1 : length h1 = length h) by apply length_insert.
  assert (Hs2 : (h1 ++ [pushed]) !! stack = Some (S ++ pushed))
    by (rewrite lookup_app_l by lia; exact Hs1).
  exists (length h1), h1, (<[stack := S]> (h1 ++ [pushed])).
  split; [by apply push_all_run|]. split.
  - unfold takeArgs.
    rewrite (bind_run _ _ _ _ _ (array_length_run _ _ _ Hs1)).
    rewrite (bind_run _ _ _ (length h1) (h1 ++ [pushed])).
    + rewrite (bind_run _ _ _ _ _ (array_length_run _ _ _ Hs2)).
      rewrite (bind_run _ _ _ tt (<[stack := S]> (h1 ++ [pushed]))); [done|].
      rewrite (array_set_length_run _ _ _ _ Hs2)
        by (rewrite length_app; lia).
      rewrite length_app.
      replace (Z.to_nat (Z.of_nat (length S + length pushed) - param_bytes m))
        with (length S) by lia.
      by rewrite take_app_length.
    + rewrite (array_slice_run _ _ _ _ Hs1) by (rewrite length_app; lia).
      rewrite length_app.
      replace (Z.to_nat (Z.of_nat (length S + length pushed) - param_bytes m))
        with (length S) by lia.
      by rewrite drop_app_length.
  - split; [|split; [|split]].
    + rewrite list_lookup_insert_ne by lia. by rewrite list_lookup_middle.
    + apply list_lookup_insert_eq. rewrite length_app. simpl. lia.
    + by apply lookup_ge_None_2.
    + intros a Har Has. rewrite list_lookup_insert_ne by done.
      destruct (decide (a < length h1)%nat) as [Hlt'|Hge].
      * rewrite lookup_app_l by exact Hlt'.
        unfold h1. by rewrite list_lookup_insert_ne.
      * rewrite !lookup_ge_None_2; [done|lia|].
        rewrite length_app. simpl. lia.
Qed.

(** C10. The two branches of [convertArgs] differ in aliasing. On a
    signature polymorphic method it puts [thread] in front of the caller's
    array in place and returns that same array. On any other method it
    returns an array that did not exist before and changes no existing
    array, the caller's included. *)
Theorem convertArgs_aliasing m thread params raw (h : heap) :
  h !! params = Some raw ->
  exists r h',
    convertArgs m thread params h = (inr r, h')
    /\ if isSignaturePolymorphic m
       then r = params
            /\ h' !! params = Some (thread :: raw)
            /\ length h' = length h
            /\ forall a, a <> params -> h' !! a = h !! a
       else h !! r = None
            /\ is_Some (h' !! r)
            /\ r <> params
            /\ h' !! params = Some raw
            /\ forall a, a <> r -> h' !! a = h !! a.
Proof.
  intros Hraw.
  assert (Hlt : (params < length h)%nat) by by eapply lookup_lt_Some.
  destruct (isSignaturePolymorphic m) eqn:Hsp.
  - eexists _, _. split; [by apply convertArgs_polymorphic_run|].
    split; [done|]. split; [by apply list_lookup_insert_eq|].
    split; [apply length_insert|].
    intros a Ha. by rewrite list_lookup_insert_ne.
  - eexists _, _. split; [by apply convertArgs_marshal_run|].
    split; [by apply lookup_ge_None_2|].
    split; [rewrite list_lookup_middle by done; eauto|].
    split; [lia|]. split; [by rewrite lookup_app_l|].
    intros a Ha. destruct (decide (a < length h)%nat) as [Hlt'|Hge].
    + by rewrite lookup_app_l.
    + rewrite !lookup_ge_None_2; [done|lia|].
      rewrite length_app. simpl. lia.
Qed.

End MarshalProperties.

(** ** The properties at concrete methods *)

(** C1 at [java/lang/ref/Reference.<clinit>()V]. *)
Lemma parse_trap_forces_native_witness :
  Util.isNative (Methods.accessFlags Fixtures.reference_clinit) = true
  /\ Methods.code Fixtures.reference_clinit
     = Methods.CodeFunction (Methods.Trapped Methods.Reference_clinit)
  /\ Methods.getNativeFunction Fixtures.reference_clinit
     = inr (Methods.CodeFunction (Methods.Trapped Methods.Reference_clinit)).
Proof.
  apply (@parse_trap_forces_native Fixtures.words
           "Ljava/lang/ref/Reference;" [8; 1; 2; 0]%Z Fixtures.pool
           Fixtures.reference_clinit [] Methods.Reference_clinit).
  - vm_compute. reflexivity.
  - vm_compute. reflexivity.
Defined.

(** C2 as stated fails: a method with both [ACC_NATIVE] and [ACC_ABSTRACT]
    takes the native branch of the resolver, and [getNativeFunction]
    succeeds on this abstract method. *)
Lemma abstract_native_accessor_succeeds :
  @Methods.parse Fixtures.words "Lfoo/Bar;" [0x0500; 8; 2; 0]%Z Fixtures.pool
  = inr (Fixtures.native_abstract_run, [])
  /\ Util.isAbstract (Methods.accessFlags Fixtures.native_abstract_run) = true
  /\ Methods.getNativeFunction Fixtures.native_abstract_run
     = inr (Methods.code Fixtures.native_abstract_run)
  /\ Methods.getNativeFunction Fixtures.native_abstract_run
     <> inl JS.AssertionError.
Proof. repeat split; try (vm_compute; reflexivity). discriminate. Qed.

(** C2 at a method with bytecode. *)
Lemma parse_code_variant_witness :
  JS.succeeds (Methods.getCodeAttribute Fixtures.bytecode_run)
  /\ ~ JS.succeeds (Methods.getNativeFunction Fixtures.bytecode_run).
Proof.
  destruct (@parse_code_variant Fixtures.words "Lfoo/Bar;"
              [1; 8; 9; 1; 3]%Z Fixtures.pool Fixtures.bytecode_run [])
    as (Hnat & _ & Hcode & _).
  - vm_compute. reflexivity.
  - split.
    + apply Hcode. split; reflexivity.
    + intros Hs. apply Hnat in Hs. discriminate.
Defined.

(** C3 at [run(IJLjava/lang/String;[D)V], not static: 6 words, 5
    parameters. *)
Lemma parse_param_word_size_witness :
  Methods.getParamWordSize Fixtures.bytecode_run = 6%Z
  /\ Methods.getNumberOfParameters Fixtures.bytecode_run = 5%Z.
Proof.
  apply (@parse_param_word_size Fixtures.words "Lfoo/Bar;"
           [1; 8; 9; 1; 3]%Z Fixtures.pool Fixtures.bytecode_run []).
  vm_compute. reflexivity.
Defined.

(** C4 at the same method, on a stack slice with a receiver, an [int], a
    [long] with its second slot, a string and an array. *)
Lemma convertArgs_result_witness :
  exists r h' out,
    Methods.convertArgs Fixtures.bytecode_run (Methods.Thread 0) 0%nat
      [[Methods.Ref 9; Methods.Num 1; Methods.Num 2; Methods.Null;
        Methods.Ref 7; Methods.Ref 8]]
    = (inr r, h')
    /\ h' !! r = Some out
    /\ out = [Methods.Thread 0; Methods.Ref 9; Methods.Num 1; Methods.Num 2;
              Methods.Ref 7; Methods.Ref 8]
    /\ Z.of_nat (length out) = 6%Z.
Proof.
  destruct (@convertArgs_result Fixtures.words "Lfoo/Bar;"
              [1; 8; 9; 1; 3]%Z Fixtures.pool Fixtures.bytecode_run []
              (Methods.Thread 0) 0%nat
              [Methods.Ref 9; Methods.Num 1; Methods.Num 2; Methods.Null;
               Methods.Ref 7; Methods.Ref 8]
              [[Methods.Ref 9; Methods.Num 1; Methods.Num 2; Methods.Null;
                Methods.Ref 7; Methods.Ref 8]])
    as (r & h' & out & Hrun & Hout & Hspec).
  - vm_compute. reflexivity.
  - reflexivity.
  - exists r, h', out. simpl in Hspec. destruct Hspec as [-> Hlen].
    repeat split; assumption.
Defined.

(** C5 at the same method: six values pushed over a stack of one. *)
Lemma takeArgs_restores_witness :
  exists r h1 h',
    Methods.push_all 0%nat
      [Methods.Ref 9; Methods.Num 1; Methods.Num 2; Methods.Null;
       Methods.Ref 7; Methods.Ref 8] [[Methods.Num 7]]
    = (inr tt, h1)
    /\ Methods.takeArgs Fixtures.bytecode_run 0%nat h1 = (inr r, h')
    /\ h' !! r = Some [Methods.Ref 9; Methods.Num 1; Methods.Num 2;
                       Methods.Null; Methods.Ref 7; Methods.Ref 8]
    /\ h' !! 0%nat = Some [Methods.Num 7]
    /\ h1 !! r = None
    /\ forall a, a <> r -> a <> 0%nat -> h' !! a = [[Methods.Num 7]] !! a.
Proof.
  apply (takeArgs_restores Fixtures.bytecode_run 0%nat [Methods.Num 7]
           [Methods.Ref 9; Methods.Num 1; Methods.Num 2; Methods.Null;
            Methods.Ref 7; Methods.Ref 8] [[Methods.Num 7]]).
  - reflexivity.
  - reflexivity.
Defined.

(** C8 at [(Lfoo)V], whose class name token has no closing [;]. *)
Lemma parse_descriptor_rejects_malformed_witness :
  exists rest,
    Methods.parse_descriptor {| Util.byte := 0 |} "(Lfoo)V"
    = inl (JS.BadDescriptor rest).
Proof.
  apply (parse_descriptor_rejects_malformed {| Util.byte := 0 |} "(Lfoo)V"
           (list_ascii_of_string "Lfoo") (list_ascii_of_string "V")).
  - reflexivity.
  - intros Hwf. apply well_formed_params_accepted in Hwf as [l Hl].
    vm_compute in Hl. discriminate.
Defined.

(** C10 at [MethodHandle.invoke]: the caller's array is the result. *)
Lemma convertArgs_aliasing_witness :
  exists r h',
    Methods.convertArgs Fixtures.method_handle_invoke (Methods.Thread 0)
      0%nat [[Methods.Num 1; Methods.Num 2; Methods.Num 3]]
    = (inr r, h')
    /\ r = 0%nat
    /\ h' !! 0%nat = Some [Methods.Thread 0; Methods.Num 1; Methods.Num 2;
                           Methods.Num 3].
Proof.
  destruct (convertArgs_aliasing Fixtures.method_handle_invoke
              (Methods.Thread 0) 0%nat
              [Methods.Num 1; Methods.Num 2; Methods.Num 3]
              [[Methods.Num 1; Methods.Num 2; Methods.Num 3]])
    as (r & h' & Hrun & Halias).
  - reflexivity.
  - exists r, h'. simpl in Halias. destruct Halias as (-> & Hp & _).
    repeat split; assumption.
Defined.

(** ** Further properties of the class bytes provider *)

Section JvmMore.
Import JS Jvm.

Variable fs : FS.
Variable bytestr_to_array : string -> list Z.
Variable normalize : string -> string.

Local Abbreviation loop := (read_classfile_loop fs bytestr_to_array).
Local Abbreviation filename := class_filename.

(** X1. When no classpath entry holds the class file (the empty classpath
    included), [read_classfile] probes every entry in order, reads no file,
    and ends with one call of [failure_cb] with the no-file error that
    names the class without its [L] and [;]; [cb] is not called. *)
Theorem read_classfile_not_found st cls cb failure_cb :
  Forall (fun q => existsSync fs (filename q (slice_1_m1 cls)) = false)
    (classpath st) ->
  (read_classfile fs bytestr_to_array st cls cb failure_cb).1
  = map (fun q => FsExists (filename q (slice_1_m1 cls))) (classpath st)
    ++ [FailureCb
          (Error ("Error: No file found for class "
                  +:+ slice_1_m1 cls +:+ "."))].
Proof.
  intros Hnone. unfold read_classfile. cbv zeta.
  rewrite <- (app_nil_r (classpath st)) at 1.
  rewrite (loop_skip_prefix _ _ _ _ _ _ _ Hnone). simpl.
  unfold call. by destruct (failure_cb _).
Qed.

(** X2. An I/O error masks later hits: when reading the first entry that
    holds the file raises [e], the log ends with [failure_cb e]; [cb] is
    not called and no later entry is probed or read, whatever those entries
    hold and whatever the callbacks do. *)
Theorem read_classfile_io_error_masks st cls cb failure_cb pre p post e :
  classpath st = pre ++ p :: post ->
  Forall (fun q => existsSync fs (filename q (slice_1_m1 cls)) = false) pre ->
  existsSync fs (filename p (slice_1_m1 cls)) = true ->
  readFileSync fs (filename p (slice_1_m1 cls)) = inl e ->
  (read_classfile fs bytestr_to_array st cls cb failure_cb).1
  = map (fun q => FsExists (filename q (slice_1_m1 cls))) pre
    ++ [FsExists (filename p (slice_1_m1 cls));
        FsRead (filename p (slice_1_m1 cls));
        FailureCb e].
Proof.
  intros Hcp Hpre Hex Hrd. unfold read_classfile. cbv zeta.
  rewrite Hcp, (loop_skip_prefix _ _ _ _ _ _ _ Hpre).
  by rewrite (loop_io_error _ _ _ _ _ _ _ _ Hex Hrd).
Qed.

(** X3. An exception thrown by [cb] is handed to [failure_cb]: the log
    ends with the call of [cb] followed by the call of [failure_cb] with
    that exception, and [read_classfile] completes as [failure_cb] does. *)
Theorem read_classfile_cb_exception st cls cb failure_cb pre p post s e :
  classpath st = pre ++ p :: post ->
  Forall (fun q => existsSync fs (filename q (slice_1_m1 cls)) = false) pre ->
  existsSync fs (filename p (slice_1_m1 cls)) = true ->
  readFileSync fs (filename p (slice_1_m1 cls)) = inr s ->
  cb (bytestr_to_array s) = Throw e ->
  read_classfile fs bytestr_to_array st cls cb failure_cb
  = (map (fun q => FsExists (filename q (slice_1_m1 cls))) pre
     ++ [FsExists (filename p (slice_1_m1 cls));
         FsRead (filename p (slice_1_m1 cls));
         Cb (bytestr_to_array s);
         FailureCb e],
     match failure_cb e with
     | Return => inr tt
     | Throw e' => inl e'
     end).
Proof.
  intros Hcp Hpre Hex Hrd Hcb. unfold read_classfile. cbv zeta.
  rewrite Hcp, (loop_skip_prefix _ _ _ _ _ _ _ Hpre).
  rewrite (loop_hit _ _ _ _ _ _ _ _ Hex Hrd). cbv zeta.
  by rewrite Hcb.
Qed.

(** The exceptions that leave the loop are those of [failure_cb]. *)
Lemma loop_throws cls cb failure_cb ps e :
  (loop cls cb failure_cb ps).2 = inl e ->
  exists x, FailureCb x ∈ (loop cls cb failure_cb ps).1
            /\ failure_cb x = Throw e.
Proof.
  induction ps as [|p ps IH].
  - simpl. unfold call.
    destruct (failure_cb _) as [|e'] eqn:Hf; simpl; [discriminate|].
    intros [= <-]. eexists. split; [|exact Hf]. apply list_elem_of_here.
  - destruct (existsSync fs (filename p cls)) eqn:Hex.
    + destruct (readFileSync fs (filename p cls)) as [e0|s] eqn:Hrd.
      * rewrite (loop_io_error _ _ _ _ _ _ _ _ Hex Hrd). cbv zeta. simpl.
        destruct (failure_cb e0) as [|e'] eqn:Hf; [discriminate|].
        intros [= <-]. exists e0. split; [|exact Hf].
        do 2 apply list_elem_of_further. apply list_elem_of_here.
      * rewrite (loop_hit _ _ _ _ _ _ _ _ Hex Hrd). cbv zeta.
        destruct (cb (bytestr_to_array s)) as [|e0]; simpl; [discriminate|].
        destruct (failure_cb e0) as [|e'] eqn:Hf; [discriminate|].
        intros [= <-]. exists e0. split; [|exact Hf].
        do 3 apply list_elem_of_further. apply list_elem_of_here.
    + rewrite (loop_skip _ _ _ _ _ _ _ Hex). simpl. intros He.
      destruct (IH He) as (x & Hin & Hf). exists x.
      split; [by apply list_elem_of_further|exact Hf].
Qed.

(** X4. [read_classfile] contains the exceptions of the file system and
    of [cb]: an exception leaves it only when [failure_cb] was called and
    threw it. *)
Theorem read_classfile_throws_only_failure_cb st cls cb failure_cb e :
  (read_classfile fs bytestr_to_array st cls cb failure_cb).2 = inl e ->
  exists x,
    FailureCb x ∈ (read_classfile fs bytestr_to_array st cls cb failure_cb).1
    /\ failure_cb x = Throw e.
Proof. unfold read_classfile. cbv zeta. apply loop_throws. Qed.

(** X5. Whatever the file system and the callbacks do, one invocation of
    [read_classfile] reads at most one file, calls [cb] at most once and
    [failure_cb] at most once, and calls at least one of them. *)
Theorem read_classfile_callback_bounds st cls cb failure_cb :
  let tr := (read_classfile fs bytestr_to_array st cls cb failure_cb).1 in
  (length (reads tr) <= 1
   /\ length (delivered tr) <= 1
   /\ 1 <= length (callbacks tr) <= length (delivered tr) + 1)%nat.
Proof.
  unfold read_classfile. cbv zeta.
  generalize (slice_1_m1 cls) as c. intros c.
  induction (classpath st) as [|p ps IH].
  - simpl. unfold call. destruct (failure_cb _); simpl; lia.
  - destruct (existsSync fs (filename p c)) eqn:Hex.
    + destruct (readFileSync fs (filename p c)) as [e0|s] eqn:Hrd.
      * rewrite (loop_io_error _ _ _ _ _ _ _ _ Hex Hrd). simpl. lia.
      * rewrite (loop_hit _ _ _ _ _ _ _ _ Hex Hrd). cbv zeta.
        destruct (cb (bytestr_to_array s)); simpl; lia.
    + rewrite (loop_skip _ _ _ _ _ _ _ Hex). exact IH.
Qed.

Lemma drop_last_snoc s c : drop_last (s +:+ String c "") = s.
Proof.
  induction s as [|a s IH]; [done|].
  simpl. rewrite IH. by destruct s.
Qed.

(** X6. For a class descriptor [L<name>;], [read_classfile] searches for
    [<name>]: it behaves as the search loop on [name], whose first probe
    under an entry [p] is [p/<name>.class]. *)
Theorem read_classfile_strips_descriptor st name cb failure_cb :
  read_classfile fs bytestr_to_array st ("L" +:+ name +:+ ";") cb failure_cb
  = loop name cb failure_cb (classpath st)
  /\ forall p ps, classpath st = p :: ps ->
       head (probes (read_classfile fs bytestr_to_array st
                       ("L" +:+ name +:+ ";") cb failure_cb).1)
       = Some (p +:+ "/" +:+ name +:+ ".class").
Proof.
  assert (Hs : slice_1_m1 ("L" +:+ name +:+ ";") = name)
    by apply drop_last_snoc.
  unfold read_classfile. cbv zeta. rewrite Hs. split; [done|].
  intros p ps ->. simpl.
  unfold read_classfile_body, fs_exists, fs_read, emit, call, throw,
    try_catch, mbind, M_bind, mret, M_ret; simpl.
  destruct (existsSync fs (filename p name)); simpl.
  - destruct (readFileSync fs (filename p name)); simpl.
    + destruct (failure_cb _); done.
    + destruct (cb _); simpl; [done|]. destruct (failure_cb _); done.
  - destruct (loop name cb failure_cb ps). done.
Qed.

(** The loop of [set_classpath] appends to the classpath and touches no
    other field. *)
Lemma set_classpath_loop_state entries st :
  fold_left
    (fun st class_path =>
       let class_path := standardize normalize class_path in
       if existsSync fs class_path
       then {| classpath := classpath st ++ [class_path];
               show_NYI_natives := show_NYI_natives st;
               dump_state := dump_state st |}
       else st)
    entries st
  = {| classpath :=
         classpath st
           ++ List.filter (existsSync fs)
                (map (standardize normalize) entries);
       show_NYI_natives := show_NYI_natives st;
       dump_state := dump_state st |}.
Proof.
  revert st. induction entries as [|e entries IH]; intros st; simpl.
  - rewrite app_nil_r. by destruct st.
  - rewrite IH. destruct (existsSync fs (standardize normalize e)); simpl;
      [by rewrite <- app_assoc|done].
Qed.

(** X7. [set_classpath] starts from an empty classpath: what an earlier
    call (or anything else) left in [root.classpath] is discarded, the last
    call alone decides the classpath, and the other fields of [root] stay
    as they were. *)
Theorem set_classpath_last_call_wins jcl_path user jcl_path' user' st :
  set_classpath fs normalize jcl_path user
    (set_classpath fs normalize jcl_path' user' st)
  = set_classpath fs normalize jcl_path user st
  /\ show_NYI_natives (set_classpath fs normalize jcl_path user st)
     = show_NYI_natives st
  /\ dump_state (set_classpath fs normalize jcl_path user st)
     = dump_state st.
Proof.
  unfold set_classpath. cbv zeta. rewrite !set_classpath_loop_state.
  simpl. done.
Qed.

End JvmMore.

(** ** Further properties of the descriptor regular expression *)

Section RegexMore.
Import JS Util Methods.
Local Open Scope Z_scope.

Lemma list_ascii_of_string_app s t :
  list_ascii_of_string (s +:+ t)
  = list_ascii_of_string s ++ list_ascii_of_string t.
Proof. induction s as [|c s IH]; simpl; [done|by rewrite IH]. Qed.

(** [until_char] finds the first [c]: it splits the string there. *)
Lemma until_char_Some c s b a :
  until_char c s = Some (b, a) <-> s = b ++ c :: a /\ c ∉ b.
Proof.
  revert b a. induction s as [|x s IH]; intros b a; simpl.
  - split; [discriminate|]. intros [Hs _]. by destruct b.
  - destruct (Ascii.eqb_spec x c) as [->|Hx].
    + split.
      * intros [= <- <-]. split; [done|apply not_elem_of_nil].
      * intros [Hs Hb]. destruct b as [|y b]; [by injection Hs as <-|].
        injection Hs as <- _. exfalso. apply Hb, list_elem_of_here.
    + split.
      * destruct (until_char c s) as [[b' a']|] eqn:Hu; simpl;
          [|discriminate].
        intros [= <- <-]. destruct (proj1 (IH _ _) eq_refl) as [-> Hb].
        split; [done|]. rewrite not_elem_of_cons. by split; [congruence|].
      * intros [Hs Hb]. destruct b as [|y b]; [by injection Hs|].
        injection Hs as <- ->. apply not_elem_of_cons in Hb as [_ Hb].
        by rewrite (proj2 (IH b a)).
Qed.

Lemma until_char_None c s : until_char c s = None <-> c ∉ s.
Proof.
  induction s as [|x s IH]; simpl; [split; [intros _; apply not_elem_of_nil|done]|].
  destruct (Ascii.eqb_spec x c) as [->|Hx].
  - split; [discriminate|]. intros Hn. exfalso. apply Hn, list_elem_of_here.
  - rewrite not_elem_of_cons. destruct (until_char c s) as [[? ?]|]; simpl.
    + split; [discriminate|]. intros [_ Hn]. by apply IH in Hn.
    + split; [|done]. intros _. split; [congruence|by apply IH].
Qed.

(** The regular expression fails exactly on the strings without an
    opening parenthesis that has a closing one somewhere after it. *)
Lemma descriptor_regex_None raw :
  descriptor_regex raw = None
  <-> ~ exists a b c,
        list_ascii_of_string raw = a ++ "("%char :: b ++ ")"%char :: c.
Proof.
  unfold descriptor_regex. split.
  - intros Hre (a & b & c & Heq). rewrite Heq in Hre.
    destruct (until_char "(" (a ++ "("%char :: b ++ ")"%char :: c))
      as [[a' r]|] eqn:Ha.
    + simpl in Hre. apply until_char_Some in Ha as [Hsplit Ha'].
      destruct (until_char ")" r) as [[? ?]|] eqn:Hr; [discriminate|].
      apply until_char_None in Hr.
      assert (Hin : ")"%char ∈ a' ++ "("%char :: r).
      { rewrite <- Hsplit. rewrite !elem_of_app, !elem_of_cons, elem_of_app,
          elem_of_cons. auto. }
      (* the closing parenthesis of the witness lies after the first
         opening one, since that one is at or before the witness's *)
      clear Hre Hin.
      assert (Hr' : ")"%char ∈ r); [|done].
      clear Hr Heq. revert a' Hsplit Ha'.
      induction a as [|x a IHa]; intros a' Hsplit Ha'.
      * destruct a' as [|y a'].
        -- injection Hsplit as <-. rewrite elem_of_app, elem_of_cons. auto.
        -- injection Hsplit as <- _. exfalso. apply Ha', list_elem_of_here.
      * destruct a' as [|y a'].
        -- injection Hsplit as -> <-.
           rewrite !elem_of_app, !elem_of_cons, elem_of_app, elem_of_cons.
           auto.
        -- injection Hsplit as <- Hsplit.
           apply not_elem_of_cons in Ha' as [_ Ha']. by eapply IHa.
    + apply until_char_None in Ha. apply Ha.
      rewrite elem_of_app, elem_of_cons. auto.
  - intros Hno.
    destruct (until_char "(" (list_ascii_of_string raw)) as [[a r]|] eqn:Ha;
      [|done].
    simpl. destruct (until_char ")" r) as [[b c]|] eqn:Hr; [|done].
    exfalso. apply Hno.
    apply until_char_Some in Ha as [-> _].
    apply until_char_Some in Hr as [-> _]. eauto.
Qed.

(** X8. A descriptor without a parenthesised parameter region (no opening
    parenthesis, or no closing one after the first opening one) makes
    [parse_descriptor] fail with the [TypeError] of reading [match[1]] on
    [null], whatever the access flags. *)
Theorem parse_descriptor_no_region flags raw :
  (~ exists a b c,
       list_ascii_of_string raw = a ++ "("%char :: b ++ ")"%char :: c) ->
  parse_descriptor flags raw
  = inl (TypeError "Cannot read property '1' of null").
Proof.
  intros Hno. apply descriptor_regex_None in Hno.
  unfold parse_descriptor. by rewrite Hno.
Qed.

(** X9. The regular expression is not anchored: characters in front of the
    first opening parenthesis are ignored, so that [parse_descriptor] gives
    the same result with and without them. *)
Theorem parse_descriptor_ignores_prefix flags pre raw :
  "("%char ∉ list_ascii_of_string pre ->
  parse_descriptor flags (pre +:+ raw) = parse_descriptor flags raw.
Proof.
  intros Hpre. unfold parse_descriptor.
  assert (Hre : descriptor_regex (pre +:+ raw) = descriptor_regex raw);
    [|by rewrite Hre].
  unfold descriptor_regex. rewrite list_ascii_of_string_app.
  generalize (list_ascii_of_string raw) as s. intros s.
  induction (list_ascii_of_string pre) as [|x p IH]; [done|].
  apply not_elem_of_cons in Hpre as [Hx Hp]. specialize (IH Hp).
  simpl. destruct (Ascii.eqb_spec x "("); [congruence|].
  destruct (until_char "(" (p ++ s)) as [[? ?]|],
           (until_char "(" s) as [[? ?]|]; simpl in *; try done.
Qed.

End RegexMore.

(** ** Further properties of [parse] and of the attribute search *)

Section ParseMore.
Import JS Util Methods Members.
Local Open Scope Z_scope.

Lemma isVarArgs_setNative f : isVarArgs (setNative true f) = isVarArgs f.
Proof.
  unfold isVarArgs, setNative, ACC_NATIVE, ACC_VARARGS. simpl.
  change 256 with (2 ^ 8). change 128 with (2 ^ 7).
  by rewrite land_lor_other_bit.
Qed.

(** X10. [get_attribute] gives the first of the attributes that
    [get_attributes] gives, and [null] exactly when no attribute has the
    name. *)
Theorem get_attribute_first_of_all ats n :
  get_attribute ats n = head (get_attributes ats n)
  /\ (get_attribute ats n = None <->
      forall a, a ∈ ats -> getName a <> n).
Proof.
  unfold get_attribute, get_attributes.
  induction ats as [|a ats [IH1 IH2]]; simpl.
  - split; [done|]. split; [|done]. intros _ a Ha. by apply not_elem_of_nil in Ha.
  - destruct (String.eqb_spec (getName a) n) as [Heq|Hne]; simpl.
    + split; [done|]. split; [discriminate|].
      intros Hall. exfalso. apply (Hall a); [apply list_elem_of_here|done].
    + split; [exact IH1|]. rewrite IH2. split.
      * intros Hall b Hb. apply elem_of_cons in Hb as [->|Hb]; [done|].
        by apply Hall.
      * intros Hall b Hb. by apply Hall, list_elem_of_further.
Qed.

Context `{Collaborators}.

(** [parse], branch by branch, on the header it read. *)
Lemma parse_header cls0 bs cp :
  let '(flags, nm, raw, bs3) := header bs cp in
  match parse_descriptor flags raw with
  | inl e => parse cls0 bs cp = inl e
  | inr d =>
      exists m,
        parse cls0 bs cp = inr (m, (makeAttributes bs3 cp).2)
        /\ cls m = cls0 /\ slot m = -1 /\ name m = nm
        /\ raw_descriptor m = raw
        /\ attrs m = (makeAttributes bs3 cp).1
        /\ param_types m = d_param_types d
        /\ return_type m = d_return_type d
        /\ match getTrappedMethod cls0 (nm +:+ raw) with
           | Some f =>
               accessFlags m = setNative true flags
               /\ code m = CodeFunction (Trapped f)
           | None =>
               accessFlags m = flags
               /\ code m =
                  if isNative flags then
                    if (indexOf (full_signature cls0 nm raw)
                          "::registerNatives()V" 1 <? 0)
                       && (indexOf (full_signature cls0 nm raw)
                             "::initIDs()V" 1 <? 0)
                    then CodeFunction
                           (NativeBinder cls0 (nm +:+ raw)
                              (full_signature cls0 nm raw))
                    else CodeFunction Nop
                  else if isAbstract flags then CodeUndefined
                  else CodeAttribute
                         (get_attribute (makeAttributes bs3 cp).1 "Code")
           end
  end.
Proof.
  unfold header, parse, AbstractMethodField_parse. cbv zeta.
  destruct (getUint16 bs) as [flags bs1]. simpl.
  destruct (getUint16 bs1) as [i bs2]. simpl.
  destruct (getUint16 bs2) as [j bs3]. simpl.
  destruct (parse_descriptor _ _) as [e|d]; [done|].
  destruct (makeAttributes bs3 cp) as [ats bs4]. simpl.
  destruct (getTrappedMethod cls0 _) as [f|].
  { eexists. split; [reflexivity|]. simpl. done. }
  destruct (isNative {| byte := flags |}).
  { destruct (_ && _); eexists; (split; [reflexivity|]); simpl; done. }
  destruct (isAbstract {| byte := flags |}); simpl;
    eexists; (split; [reflexivity|]); simpl; done.
Qed.


(** X12. A parsed method has slot [-1], the owner it was created with and
    the name and descriptor that the header names. Of its access flags
    [parse] changes nothing but [NATIVE], which is set when the method is
    trapped: [STATIC], [ABSTRACT] and [VARARGS] are as read. *)
Theorem parse_keeps_header cls0 bs cp m bs' :
  parse cls0 bs cp = inr (m, bs') ->
  let '(flags, nm, raw, _) := header bs cp in
  cls m = cls0 /\ slot m = -1 /\ name m = nm /\ raw_descriptor m = raw
  /\ isStatic (accessFlags m) = isStatic flags
  /\ isAbstract (accessFlags m) = isAbstract flags
  /\ isVarArgs (accessFlags m) = isVarArgs flags
  /\ isNative (accessFlags m)
     = isNative flags
       || bool_decide (is_Some (getTrappedMethod cls0 (nm +:+ raw))).
Proof.
  intros Hp. pose proof (parse_header cls0 bs cp) as Hh.
  destruct (header bs cp) as [[[flags nm] raw] bs3].
  destruct (parse_descriptor flags raw) as [e'|d]; [congruence|].
  destruct Hh as (m' & Hp' & Hc & Hs & Hn & Hr & _ & _ & _ & Hcode).
  rewrite Hp in Hp'. injection Hp' as <- _.
  repeat (split; [assumption|]).
  destruct (getTrappedMethod cls0 (nm +:+ raw)) as [f|].
  - destruct Hcode as [-> _].
    rewrite isStatic_setNative, isAbstract_setNative, isVarArgs_setNative,
      isNative_setNative, orb_true_r. done.
  - destruct Hcode as [-> _]. by rewrite orb_false_r.
Qed.

(** On a parsed method that is neither native nor abstract, the code is
    what [get_attribute('Code')] gave. *)
Lemma parse_code_attribute cls0 bs cp m bs' :
  parse cls0 bs cp = inr (m, bs') ->
  isNative (accessFlags m) = false ->
  isAbstract (accessFlags m) = false ->
  code m = CodeAttribute (get_attribute (attrs m) "Code").
Proof.
  intros Hp Hn Ha.
  pose proof (parse_header cls0 bs cp) as Hh.
  destruct (header bs cp) as [[[flags nm] raw] bs3].
  destruct (parse_descriptor flags raw) as [e'|d]; [congruence|].
  destruct Hh as (m' & Hp' & _ & _ & _ & _ & Hat & _ & _ & Hcode).
  rewrite Hp in Hp'. injection Hp' as <- _.
  destruct (getTrappedMethod cls0 (nm +:+ raw)) as [f|].
  - destruct Hcode as [Hf _]. rewrite Hf, isNative_setNative in Hn. done.
  - destruct Hcode as [Hf Hc]. rewrite Hf in Hn, Ha.
    rewrite Hn, Ha in Hc. by rewrite Hc, Hat.
Qed.

(** X13. On a parsed method that is neither native nor abstract,
    [getCodeAttribute] succeeds and returns the first attribute named
    [Code], or [null] when the method has none. *)
Theorem getCodeAttribute_first_Code cls0 bs cp m bs' :
  parse cls0 bs cp = inr (m, bs') ->
  isNative (accessFlags m) = false ->
  isAbstract (accessFlags m) = false ->
  getCodeAttribute m = inr (CodeAttribute (get_attribute (attrs m) "Code")).
Proof.
  intros Hp Hn Ha. unfold getCodeAttribute. rewrite Hn, Ha. simpl.
  by rewrite (parse_code_attribute _ _ _ _ _ Hp Hn Ha).
Qed.

Lemma substring_whole s : substring 0 (String.length s) s = s.
Proof. induction s as [|c s IH]; simpl; [done|by rewrite IH]. Qed.

Lemma substring_append_r a b :
  substring (String.length a) (String.length b) (a +:+ b) = b.
Proof. induction a as [|c a IH]; simpl; [apply substring_whole|exact IH]. Qed.

(** A pattern at the end of a string, behind at least one character, is
    found from position 1 on. *)
Lemma indexOf_suffix a pat :
  a <> "" -> pat <> "" -> 0 <= indexOf (a +:+ pat) pat 1.
Proof.
  intros Ha Hpat. unfold indexOf.
  destruct (String.index 1 pat (a +:+ pat)) as [i|] eqn:Hi; [lia|].
  exfalso.
  apply (index_correct3 1 (String.length a) pat (a +:+ pat) Hi Hpat).
  - destruct a; [done|simpl; lia].
  - apply substring_append_r.
Qed.

(** X14. A native method that is not trapped and is called
    [registerNatives()V] or [initIDs()V], in a class whose external name is
    not empty, gets the do-nothing function as its code. *)
Theorem parse_native_nop cls0 bs cp m bs' :
  parse cls0 bs cp = inr (m, bs') ->
  getTrappedMethod cls0 (name m +:+ raw_descriptor m) = None ->
  isNative (accessFlags m) = true ->
  name m = "registerNatives" \/ name m = "initIDs" ->
  raw_descriptor m = "()V" ->
  ext_classname cls0 <> "" ->
  code m = CodeFunction Nop.
Proof.
  intros Hp Ht Hn Hname Hraw Hext.
  pose proof (parse_header cls0 bs cp) as Hh.
  destruct (header bs cp) as [[[flags nm] raw] bs3].
  destruct (parse_descriptor flags raw) as [e'|d]; [congruence|].
  destruct Hh as (m' & Hp' & _ & _ & Hnm & Hr & _ & _ & _ & Hcode).
  rewrite Hp in Hp'. injection Hp' as <- _.
  rewrite Hnm, Hr in Ht. rewrite Ht in Hcode. destruct Hcode as [Hf Hc].
  rewrite Hf in Hn. rewrite Hn in Hc. rewrite Hc.
  rewrite <- Hnm, <- Hr, Hraw. unfold full_signature.
  destruct Hname as [-> | ->].
  - change (ext_classname cls0 +:+ "::" +:+ "registerNatives" +:+ "()V")
      with (ext_classname cls0 +:+ "::registerNatives()V").
    pose proof (indexOf_suffix (ext_classname cls0) "::registerNatives()V"
                  Hext ltac:(discriminate)) as Hi.
    destruct (Z.ltb_spec
                (indexOf (ext_classname cls0 +:+ "::registerNatives()V")
                   "::registerNatives()V" 1) 0); [lia|done].
  - change (ext_classname cls0 +:+ "::" +:+ "initIDs" +:+ "()V")
      with (ext_classname cls0 +:+ "::initIDs()V").
    pose proof (indexOf_suffix (ext_classname cls0) "::initIDs()V"
                  Hext ltac:(discriminate)) as Hi.
    destruct (Z.ltb_spec
                (indexOf (ext_classname cls0 +:+ "::initIDs()V")
                   "::initIDs()V" 1) 0); [lia|].
    by rewrite andb_false_r.
Qed.

Lemma sum_param_words_bounds ps :
  sum_param_words ps
  = Z.of_nat (length ps)
    + Z.of_nat (length (List.filter
                          (fun p => String.eqb p "J" || String.eqb p "D") ps)).
Proof.
  induction ps as [|p ps IH]; simpl; [done|].
  destruct (String.eqb p "J" || String.eqb p "D"); simpl length; lia.
Qed.

(** X15. For a parsed method the word size is the number of parameters
    plus the number of [J] and [D] parameter types, so that
    [0 <= getNumberOfParameters <= getParamWordSize <= 2 * getNumberOfParameters]. *)
Theorem parse_size_bounds cls0 bs cp m bs' :
  parse cls0 bs cp = inr (m, bs') ->
  getParamWordSize m
  = getNumberOfParameters m
    + Z.of_nat (length (List.filter
                          (fun p => String.eqb p "J" || String.eqb p "D")
                          (param_types m)))
  /\ 0 <= getNumberOfParameters m <= getParamWordSize m
  /\ getParamWordSize m <= 2 * getNumberOfParameters m.
Proof.
  intros Hp. apply parse_sizes in Hp as [Hb Hn].
  unfold getParamWordSize, getNumberOfParameters. rewrite Hb, Hn.
  unfold spec_paramBytes, spec_numArgs. rewrite sum_param_words_bounds.
  pose proof (List.filter_length_le
                (fun p => String.eqb p "J" || String.eqb p "D")
                (param_types m)) as Hle.
  destruct (isStatic (accessFlags m)); lia.
Qed.

(** X16. [Field.parse] never fails, sets the type to the raw descriptor,
    and reads the same header as [Method.parse]: when the latter succeeds
    on the same input, both leave the stream at the same place and agree
    on name, descriptor and attributes, and on the flags up to the
    [NATIVE] flag that the method resolver may force. *)
Theorem Field_parse_agrees cls0 bs cp :
  exists f bs1,
    Field_parse cls0 bs cp = inr (f, bs1)
    /\ f_type f = f_raw_descriptor f
    /\ f_slot f = -1
    /\ forall m bs',
         parse cls0 bs cp = inr (m, bs') ->
         bs' = bs1 /\ name m = f_name f
         /\ raw_descriptor m = f_raw_descriptor f
         /\ attrs m = f_attrs f
         /\ (accessFlags m = f_accessFlags f
             \/ accessFlags m = setNative true (f_accessFlags f)).
Proof.
  pose proof (parse_header cls0 bs cp) as Hh.
  unfold Field_parse, AbstractMethodField_parse, Field_parse_descriptor.
  unfold header in Hh. cbv zeta in Hh.
  destruct (getUint16 bs) as [flags bs1]. simpl in *.
  destruct (getUint16 bs1) as [i bs2]. simpl in *.
  destruct (getUint16 bs2) as [j bs3]. simpl in *.
  destruct (makeAttributes bs3 cp) as [ats bs4]. simpl in *.
  eexists _, _. split; [reflexivity|]. simpl. split; [done|]. split; [done|].
  intros m bs' Hp.
  destruct (parse_descriptor _ _) as [e'|d]; [congruence|].
  destruct Hh as (m' & Hp' & _ & _ & Hnm & Hr & Hat & _ & _ & Hcode).
  rewrite Hp in Hp'. injection Hp' as <- ->.
  repeat (split; [assumption || reflexivity|]).
  destruct (getTrappedMethod _ _); destruct Hcode as [-> _]; auto.
Qed.

End ParseMore.

(** ** Further properties of the argument marshaller *)

Section MarshalMore.
Import JS Util Methods Members.
Local Open Scope Z_scope.

(** X17. [takeArgs] splits the caller stack: when the stack holds at least
    [param_bytes] values, the result is a new array with the last
    [param_bytes] of them, the stack keeps the others, the two put
    together are the old stack, and no other array changes. *)
Theorem takeArgs_splits_stack m stack S (h : heap) :
  h !! stack = Some S ->
  0 <= param_bytes m <= Z.of_nat (length S) ->
  exists r h' rest params,
    takeArgs m stack h = (inr r, h')
    /\ h !! r = None
    /\ h' !! stack = Some rest
    /\ h' !! r = Some params
    /\ S = rest ++ params
    /\ Z.of_nat (length params) = param_bytes m
    /\ forall a, a <> r -> a <> stack -> h' !! a = h !! a.
Proof.
  intros Hs Hpb.
  assert (Hlt : (stack < length h)%nat) by by eapply lookup_lt_Some.
  set (k := Z.to_nat (Z.of_nat (length S) - param_bytes m)).
  assert (Hs2 : (h ++ [drop k S]) !! stack = Some S)
    by (by rewrite lookup_app_l).
  exists (length h), (<[stack := take k S]> (h ++ [drop k S])),
    (take k S), (drop k S).
  split.
  - unfold takeArgs.
    rewrite (bind_run _ _ _ _ _ (array_length_run _ _ _ Hs)).
    rewrite (bind_run _ _ _ (length h) (h ++ [drop k S])).
    + rewrite (bind_run _ _ _ _ _ (array_length_run _ _ _ Hs2)).
      by rewrite (bind_run _ _ _ tt (<[stack := take k S]> (h ++ [drop k S])))
        by (apply array_set_length_run; [done|lia]).
    + apply array_slice_run; [done|lia].
  - split; [by apply lookup_ge_None_2|].
    split; [apply list_lookup_insert_eq; rewrite length_app; simpl; lia|].
    split; [rewrite list_lookup_insert_ne by lia; by rewrite list_lookup_middle|].
    split; [by rewrite take_drop|].
    split; [rewrite length_drop; lia|].
    intros a Har Has. rewrite list_lookup_insert_ne by done.
    destruct (decide (a < length h)%nat) as [Hlt'|Hge].
    + by rewrite lookup_app_l.
    + rewrite !lookup_ge_None_2; [done|lia|].
      rewrite length_app. simpl. lia.
Qed.

(** [slice] allocates whatever [start] is. *)
Lemma array_slice_allocates a start l (h : heap) :
  h !! a = Some l ->
  exists sl, array_slice a start h = (inr (length h), h ++ [sl]).
Proof.
  intros Ha. unfold array_slice.
  rewrite (bind_run _ _ _ _ _ (array_contents_run _ _ _ Ha)).
  eexists. reflexivity.
Qed.

(** X18. [takeArgs] on a stack that holds fewer than [param_bytes] values
    throws a [RangeError] (the length assignment gets a negative length),
    and every array that existed, the stack included, is as it was. *)
Theorem takeArgs_underflow m stack S (h : heap) :
  h !! stack = Some S ->
  Z.of_nat (length S) < param_bytes m ->
  exists h',
    takeArgs m stack h = (inl (RangeError "Invalid array length"), h')
    /\ forall a, (a < length h)%nat -> h' !! a = h !! a.
Proof.
  intros Hs Hpb.
  assert (Hlt : (stack < length h)%nat) by by eapply lookup_lt_Some.
  unfold takeArgs.
  rewrite (bind_run _ _ _ _ _ (array_length_run _ _ _ Hs)).
  destruct (array_slice_allocates stack
              (Z.of_nat (length S) - param_bytes m) S h Hs) as [sl Hsl].
  rewrite (bind_run _ _ _ _ _ Hsl).
  assert (Hs2 : (h ++ [sl]) !! stack = Some S) by (by rewrite lookup_app_l).
  rewrite (bind_run _ _ _ _ _ (array_length_run _ _ _ Hs2)).
  unfold array_set_length.
  unfold mbind at 1, H_bind at 1.
  rewrite (bind_run _ _ _ _ _ (array_contents_run _ _ _ Hs2)).
  destruct (Z.ltb_spec (Z.of_nat (length S) - param_bytes m) 0); [|lia].
  exists (h ++ [sl]). split; [done|].
  intros a Ha. by rewrite lookup_app_l.
Qed.

(** The values at the source indices are a subsequence of the raw
    parameters from the first index on, as long as the indices stay within
    the array. *)
Lemma source_indices_sublist raw ps : forall idx : nat,
  (Z.of_nat idx + sum_param_words ps <= Z.of_nat (length raw)) ->
  map (js_index raw) (source_indices (Z.of_nat idx) ps)
    `sublist_of` drop idx raw.
Proof.
  induction ps as [|p ps IH]; intros idx Hle; simpl; [apply sublist_nil_l|].
  simpl in Hle.
  pose proof (sum_param_words_bounds ps) as Hps.
  set (w := if String.eqb p "J" || String.eqb p "D" then 2 else 1) in *.
  assert (Hw : 1 <= w <= 2) by (unfold w; destruct (_ || _); lia).
  destruct (raw !! idx) as [v|] eqn:Hv;
    [|apply lookup_ge_None in Hv; lia].
  rewrite (drop_S _ _ _ Hv).
  assert (Hj : js_index raw (Z.of_nat idx) = v).
  { unfold js_index. destruct (Z.ltb_spec (Z.of_nat idx) 0); [lia|].
    by rewrite Nat2Z.id, Hv. }
  rewrite Hj. apply sublist_skip.
  replace (Z.of_nat idx + w) with (Z.of_nat (idx + Z.to_nat w)) by lia.
  etrans; [apply IH; lia|].
  replace (idx + Z.to_nat w)%nat with (S idx + (Z.to_nat w - 1))%nat by lia.
  rewrite <- drop_drop. apply sublist_drop.
Qed.

(** Without [J] and [D] the source indices are consecutive. *)
Lemma source_indices_consecutive raw ps : forall idx : nat,
  List.filter (fun p => String.eqb p "J" || String.eqb p "D") ps = [] ->
  (idx + length ps = length raw)%nat ->
  map (js_index raw) (source_indices (Z.of_nat idx) ps) = drop idx raw.
Proof.
  induction ps as [|p ps IH]; intros idx Hno Hlen; simpl.
  - simpl in Hlen. rewrite drop_ge by lia. done.
  - simpl in Hno, Hlen.
    destruct (String.eqb p "J" || String.eqb p "D"); [discriminate|].
    destruct (raw !! idx) as [v|] eqn:Hv;
      [|apply lookup_ge_None in Hv; lia].
    rewrite (drop_S _ _ _ Hv).
    assert (Hj : js_index raw (Z.of_nat idx) = v).
    { unfold js_index. destruct (Z.ltb_spec (Z.of_nat idx) 0); [lia|].
      by rewrite Nat2Z.id, Hv. }
    rewrite Hj. f_equal.
    replace (Z.of_nat idx + 1) with (Z.of_nat (S idx)) by lia.
    apply IH; [done|lia].
Qed.

Context `{Collaborators}.

(** X19. On a method that is not signature polymorphic, with as many raw
    parameters as the method's word size (what [takeArgs] gives),
    [convertArgs] returns [thread] followed by a subsequence of the raw
    parameters: values are left out (the second slots of [J] and [D]), and
    none is read out of range, repeated or reordered. *)
Theorem convertArgs_subsequence cls0 bs cp m bs' thread params raw (h : heap) :
  parse cls0 bs cp = inr (m, bs') ->
  isSignaturePolymorphic m = false ->
  h !! params = Some raw ->
  Z.of_nat (length raw) = getParamWordSize m ->
  exists r h' out,
    convertArgs m thread params h = (inr r, h')
    /\ h' !! r = Some (thread :: out)
    /\ out `sublist_of` raw
    /\ Z.of_nat (length out) = getNumberOfParameters m.
Proof.
  intros Hp Hsp Hraw Hlen.
  pose proof (convertArgs_marshal_run m thread params raw h Hsp Hraw) as Hrun.
  pose proof (spec_convertArgs_length (isStatic (accessFlags m))
                (param_types m) thread raw) as Hlen'.
  apply parse_sizes in Hp as [Hb Hn].
  unfold getParamWordSize, getNumberOfParameters in *.
  rewrite Hb in Hlen. rewrite Hn. unfold spec_paramBytes in Hlen.
  unfold spec_convertArgs in *.
  destruct (isStatic (accessFlags m)).
  - exists (length h), (h ++ [thread :: map (js_index raw)
                                          (source_indices 0 (param_types m))]),
      (map (js_index raw) (source_indices 0 (param_types m))).
    split; [exact Hrun|].
    split; [by rewrite list_lookup_middle|].
    split.
    + apply (source_indices_sublist raw (param_types m) 0%nat). simpl. lia.
    + rewrite length_map, source_indices_length. unfold spec_numArgs. lia.
  - destruct raw as [|v raw0] eqn:Hr.
    { simpl in Hlen. pose proof (sum_param_words_bounds (param_types m)). lia. }
    rewrite <- Hr in *.
    assert (Hj : js_index raw 0 = v) by (by rewrite Hr).
    rewrite Hj in Hrun, Hlen'.
    exists (length h), (h ++ [thread :: v :: map (js_index raw)
                                          (source_indices 1 (param_types m))]),
      (v :: map (js_index raw) (source_indices 1 (param_types m))).
    split; [exact Hrun|].
    split; [by rewrite list_lookup_middle|].
    split.
    + rewrite Hr at 2. apply sublist_skip.
      change raw0 with (drop 1 (v :: raw0)). rewrite <- Hr.
      apply (source_indices_sublist raw (param_types m) 1%nat).
      rewrite Hr in *. simpl length in *. lia.
    + simpl length. rewrite length_map, source_indices_length.
      unfold spec_numArgs. lia.
Qed.

(** X20. When, moreover, no parameter type is [J] or [D], [convertArgs]
    returns [thread] followed by the raw parameters unchanged. *)
Theorem convertArgs_no_wide cls0 bs cp m bs' thread params raw (h : heap) :
  parse cls0 bs cp = inr (m, bs') ->
  isSignaturePolymorphic m = false ->
  List.filter (fun p => String.eqb p "J" || String.eqb p "D")
    (param_types m) = [] ->
  h !! params = Some raw ->
  Z.of_nat (length raw) = getParamWordSize m ->
  exists r h',
    convertArgs m thread params h = (inr r, h')
    /\ h' !! r = Some (thread :: raw).
Proof.
  intros Hp Hsp Hno Hraw Hlen.
  pose proof (convertArgs_marshal_run m thread params raw h Hsp Hraw) as Hrun.
  apply parse_sizes in Hp as [Hb _].
  unfold getParamWordSize in Hlen. rewrite Hb in Hlen.
  unfold spec_paramBytes in Hlen.
  rewrite sum_param_words_bounds, Hno in Hlen. simpl length in Hlen.
  unfold spec_convertArgs in Hrun.
  eexists _, _. split; [exact Hrun|].
  rewrite list_lookup_middle by done. f_equal.
  destruct (isStatic (accessFlags m)).
  - f_equal.
    apply (source_indices_consecutive raw (param_types m) 0%nat Hno). lia.
  - destruct raw as [|v raw0] eqn:Hr; [simpl in Hlen; lia|].
    rewrite <- Hr. f_equal. rewrite Hr at 3. f_equal; [by rewrite Hr|].
    change raw0 with (drop 1 (v :: raw0)). rewrite <- Hr.
    apply (source_indices_consecutive raw (param_types m) 1%nat Hno).
    rewrite Hr. simpl length in *. lia.
Qed.

End MarshalMore.

(** ** Properties of [Method.reflector] *)

Section ReflectorProperties.
Import JS Util Methods Members.
Local Open Scope Z_scope.

Context `{Collaborators} `{AttributeViews}.

(** The list that [toResolve] builds, by the state of the method. *)
Lemma toResolve_shape m :
  toResolve m
  = if negb (isNative (accessFlags m)) && negb (isAbstract (accessFlags m))
    then match code m with
         | CodeAttribute (Some a) =>
             inr (return_type m :: handler_classes a
                    ++ param_types m ++ declared_exceptions m)
         | c => match exceptionHandlers c with
                | inl e => inl e
                | inr _ => inr []
                end
         end
    else inr (return_type m :: param_types m ++ declared_exceptions m).
Proof.
  unfold toResolve, declared_exceptions, handler_classes. cbv zeta.
  destruct (negb _ && negb _).
  - destruct (code m) as [|f|[a|]]; simpl; try done.
    destruct (0 <? length (catchTypes a))%nat;
      destruct (get_attribute (attrs m) "Exceptions"); simpl;
      rewrite <- ?app_assoc, ?app_nil_r; done.
  - destruct (get_attribute (attrs m) "Exceptions"); simpl;
      rewrite ?app_nil_r; done.
Qed.

(** X21. When [reflector] gets as far as [resolveClasses], the descriptors
    it asks for are exactly: the return type, the parameter types, the
    exceptions of the [Exceptions] attribute and, for a method that is
    neither native nor abstract and whose code has exception handlers,
    [Ljava/lang/Throwable;] and every catch type other than [<any>]. *)
Theorem toResolve_members m ds :
  toResolve m = inr ds ->
  forall d,
    d ∈ ds <->
    d = return_type m
    \/ d ∈ param_types m
    \/ (exists a, get_attribute (attrs m) "Exceptions" = Some a
                  /\ d ∈ exceptions a)
    \/ (isNative (accessFlags m) = false
        /\ isAbstract (accessFlags m) = false
        /\ exists a, code m = CodeAttribute (Some a)
                     /\ catchTypes a <> []
                     /\ (d = "Ljava/lang/Throwable;"
                         \/ (d ∈ catchTypes a /\ d <> "<any>"))).
Proof.
  rewrite toResolve_shape. intros Hds d.
  assert (Hexc : d ∈ declared_exceptions m <->
                 exists a, get_attribute (attrs m) "Exceptions" = Some a
                           /\ d ∈ exceptions a).
  { unfold declared_exceptions.
    destruct (get_attribute (attrs m) "Exceptions") as [a|].
    - split; [eauto|]. by intros (a' & [= <-] & Hd).
    - split; [by intros ?%not_elem_of_nil|]. by intros (a' & [=] & _). }
  destruct (isNative (accessFlags m)), (isAbstract (accessFlags m));
    simpl in Hds.
  1-3: injection Hds as <-;
       rewrite elem_of_cons, elem_of_app, Hexc;
       split; [intros [?|[?|?]]; auto|];
       intros [?|[?|[?|(? & ? & _)]]]; auto; discriminate.
  destruct (code m) as [|f|[a|]]; simpl in Hds; try discriminate.
  injection Hds as <-.
  rewrite elem_of_cons. do 2 rewrite elem_of_app. rewrite Hexc.
  assert (Hh : d ∈ handler_classes a <->
               catchTypes a <> []
               /\ (d = "Ljava/lang/Throwable;"
                   \/ (d ∈ catchTypes a /\ d <> "<any>"))).
  { unfold handler_classes. destruct (catchTypes a) as [|c cs] eqn:Hc.
    - simpl. split; [by intros ?%not_elem_of_nil|]. by intros [? _].
    - cbn [length Nat.ltb Nat.leb]. rewrite elem_of_cons, list_elem_of_In,
        List.filter_In, <- list_elem_of_In, negb_true_iff.
      split.
      + intros [->|[Hin Hne]]; (split; [done|]); [by left|right].
        split; [done|]. by apply String.eqb_neq.
      + intros [_ [->|[Hin Hne]]]; [by left|right].
        split; [done|]. by apply String.eqb_neq. }
  rewrite Hh. split.
  - intros [?|[?|[?|?]]]; auto. right; right; right. eauto 10.
  - intros [?|[?|[?|(_ & _ & a' & [= <-] & ?)]]]; auto.
Qed.

(** The list has the return type, the parameter types and the declared
    exceptions. *)
Lemma toResolve_covers m ds :
  toResolve m = inr ds ->
  return_type m ∈ ds
  /\ (forall d, d ∈ param_types m -> d ∈ ds)
  /\ (forall d, d ∈ declared_exceptions m -> d ∈ ds).
Proof.
  rewrite toResolve_shape.
  destruct (negb _ && negb _).
  - destruct (code m) as [|f|[a|]]; simpl; try discriminate.
    intros [= <-]. split; [apply list_elem_of_here|].
    split; intros d Hd; rewrite elem_of_cons, !elem_of_app; auto.
  - intros [= <-]. split; [apply list_elem_of_here|].
    split; intros d Hd; rewrite elem_of_cons, elem_of_app; auto.
Qed.

(** Looking up descriptors that [classes] has gives their class objects,
    one for one. *)
Lemma class_objects_total (classes : gmap string Z) l :
  (forall d, d ∈ l -> is_Some (classes !! d)) ->
  exists os, class_objects classes l = inr os
             /\ Forall2 (fun d o => classes !! d = Some o) l os.
Proof.
  induction l as [|d l IH]; intros Hall; simpl; [eauto|].
  destruct (Hall d (list_elem_of_here _ _)) as [o Ho]. rewrite Ho.
  destruct IH as (os & -> & Hos).
  { intros d' Hd'. by apply Hall, list_elem_of_further. }
  eauto.
Qed.

(** X22. [reflector] asks for all the classes it later looks up: when
    [resolveClasses] answers with a table that has every descriptor of
    [toResolve], the callback builds the mirror without meeting a missing
    class; its parameter types, return type and exception types are the
    class objects of the method's parameter types, return type and declared
    exceptions, its modifiers the raw flags, its slot the method's. When
    [resolveClasses] answers [null], [cb] receives [null]. *)
Theorem reflector_builds_mirror resolveClasses m is_constructor clazz_obj ds :
  toResolve m = inr ds ->
  match resolveClasses ds with
  | None =>
      reflector resolveClasses m is_constructor clazz_obj = inr None
  | Some classes =>
      (forall d, d ∈ ds -> is_Some (classes !! d)) ->
      exists mir,
        reflector resolveClasses m is_constructor clazz_obj = inr (Some mir)
        /\ Forall2 (fun d o => classes !! d = Some o)
             (param_types m) (parameterTypes mir)
        /\ classes !! return_type m = Some (returnType mir)
        /\ Forall2 (fun d o => classes !! d = Some o)
             (declared_exceptions m) (exceptionTypes mir)
        /\ modifiers mir = byte (accessFlags m)
        /\ mirror_slot mir = slot m
        /\ clazz mir = clazz_obj
  end.
Proof.
  intros Hds. unfold reflector. rewrite Hds.
  destruct (resolveClasses ds) as [classes|]; [|done].
  intros Hall. unfold reflector_resolved. cbv zeta.
  destruct (toResolve_covers m ds Hds) as (Hret & Hpar & Hdecl).
  destruct (class_objects_total classes (param_types m)) as (ps & -> & Hps).
  { intros d Hd. by apply Hall, Hpar. }
  destruct (Hall (return_type m)) as [rt Hrt]; [exact Hret|].
  unfold declared_exceptions in *.
  destruct (get_attribute (attrs m) "Exceptions") as [a|] eqn:Hexc.
  - destruct (class_objects_total classes (exceptions a)) as (es & -> & Hes).
    { intros d Hd. by apply Hall, Hdecl. }
    rewrite Hrt. eexists. split; [reflexivity|]. simpl. done.
  - rewrite Hrt. eexists. split; [reflexivity|]. simpl.
    repeat split; done.
Qed.

(** X23. On a parsed method, [reflector] throws before it reaches
    [resolveClasses] exactly when the method is neither native nor abstract
    and has no [Code] attribute: it then reads [exceptionHandlers] of
    [null], a [TypeError], and [cb] is never called. *)
Theorem reflector_without_code cls0 bs cp m bs' :
  parse cls0 bs cp = inr (m, bs') ->
  ((exists e, toResolve m = inl e) <->
   isNative (accessFlags m) = false
   /\ isAbstract (accessFlags m) = false
   /\ get_attribute (attrs m) "Code" = None)
  /\ forall e, toResolve m = inl e ->
       e = TypeError "Cannot read property 'exceptionHandlers' of null"
       /\ forall resolveClasses is_constructor clazz_obj,
            reflector resolveClasses m is_constructor clazz_obj = inl e.
Proof.
  intros Hp. pose proof (parse_code_attribute _ _ _ _ _ Hp) as Hcode.
  rewrite toResolve_shape. unfold reflector. rewrite toResolve_shape.
  destruct (isNative (accessFlags m)), (isAbstract (accessFlags m)); simpl.
  1-3: split; [split; [by intros [? ?]|by intros (? & ? & _)]|done].
  rewrite Hcode by done.
  destruct (get_attribute (attrs m) "Code") as [a|]; simpl.
  - split; [split; [by intros [? ?]|by intros (_ & _ & ?)]|done].
  - split; [split; [done|eauto]|]. by intros e [= <-].
Qed.

End ReflectorProperties.

(** ** The trapped body of [copyToByteArray] *)

Section TrapProperties.
Import JS Util Methods Members.
Local Open Scope Z_scope.




End TrapProperties.

(** ** The further properties at concrete inputs *)

(** X1 on a file system without files. *)
Lemma read_classfile_not_found_witness :
  (Jvm.read_classfile Samples.empty_fs Fixtures.bytes_of
     Fixtures.search_path "Lfoo/Bar;"
     (fun _ => JS.Return) (fun _ => JS.Return)).1
  = [Jvm.FsExists "/x//foo/Bar.class"; Jvm.FsExists "/a//foo/Bar.class";
     Jvm.FsExists "/jcl//foo/Bar.class";
     Jvm.FailureCb (JS.Error "Error: No file found for class foo/Bar.")].
Proof.
  apply (read_classfile_not_found Samples.empty_fs Fixtures.bytes_of
           Fixtures.search_path "Lfoo/Bar;"
           (fun _ => JS.Return) (fun _ => JS.Return)).
  repeat constructor.
Defined.

(** X2 where [/a/] holds an unreadable [foo/Baz.class] and [/jcl/] a
    readable one. *)
Lemma read_classfile_io_error_masks_witness :
  (Jvm.read_classfile Fixtures.two_copies Fixtures.bytes_of
     Fixtures.search_path "Lfoo/Baz;"
     (fun _ => JS.Return) (fun _ => JS.Return)).1
  = [Jvm.FsExists "/x//foo/Baz.class"; Jvm.FsExists "/a//foo/Baz.class";
     Jvm.FsRead "/a//foo/Baz.class";
     Jvm.FailureCb (JS.IoError "EACCES")].
Proof.
  apply (read_classfile_io_error_masks Fixtures.two_copies Fixtures.bytes_of
           Fixtures.search_path "Lfoo/Baz;"
           (fun _ => JS.Return) (fun _ => JS.Return)
           ["/x/"] "/a/" ["/jcl/"] (JS.IoError "EACCES")).
  - reflexivity.
  - repeat constructor.
  - reflexivity.
  - reflexivity.
Defined.

(** X3 with a [cb] that throws and a [failure_cb] that throws in turn. *)
Lemma read_classfile_cb_exception_witness :
  Jvm.read_classfile Fixtures.two_copies Fixtures.bytes_of
    Fixtures.search_path "Lfoo/Bar;"
    (fun _ => JS.Throw (JS.Error "bad class file"))
    (fun e => JS.Throw e)
  = ([Jvm.FsExists "/x//foo/Bar.class"; Jvm.FsExists "/a//foo/Bar.class";
      Jvm.FsRead "/a//foo/Bar.class"; Jvm.Cb [65; 66]%Z;
      Jvm.FailureCb (JS.Error "bad class file")],
     inl (JS.Error "bad class file")).
Proof.
  apply (read_classfile_cb_exception Fixtures.two_copies Fixtures.bytes_of
           Fixtures.search_path "Lfoo/Bar;"
           (fun _ => JS.Throw (JS.Error "bad class file"))
           (fun e => JS.Throw e)
           ["/x/"] "/a/" ["/jcl/"] "AB" (JS.Error "bad class file")).
  - reflexivity.
  - repeat constructor.
  - reflexivity.
  - reflexivity.
  - reflexivity.
Defined.

(** X4 with a [failure_cb] that throws what it is given. *)
Lemma read_classfile_throws_only_failure_cb_witness :
  exists x,
    Jvm.FailureCb x
      ∈ (Jvm.read_classfile Samples.empty_fs Fixtures.bytes_of
           Fixtures.search_path "Lfoo/Bar;"
           (fun _ => JS.Return) (fun e => JS.Throw e)).1
    /\ JS.Throw x
       = JS.Throw (JS.Error "Error: No file found for class foo/Bar.").
Proof.
  apply (read_classfile_throws_only_failure_cb Samples.empty_fs
           Fixtures.bytes_of Fixtures.search_path "Lfoo/Bar;"
           (fun _ => JS.Return) (fun e => JS.Throw e)
           (JS.Error "Error: No file found for class foo/Bar.")).
  reflexivity.
Defined.

(** X8 at [IV]. *)
Lemma parse_descriptor_no_region_witness :
  Methods.parse_descriptor {| Util.byte := 0 |} "IV"
  = inl (JS.TypeError "Cannot read property '1' of null").
Proof.
  apply (parse_descriptor_no_region {| Util.byte := 0 |} "IV").
  apply descriptor_regex_None. reflexivity.
Defined.

(** X9 at [x(I)V]. *)
Lemma parse_descriptor_ignores_prefix_witness :
  Methods.parse_descriptor {| Util.byte := 0 |} ("x" +:+ "(I)V")
  = Methods.parse_descriptor {| Util.byte := 0 |} "(I)V".
Proof.
  apply (parse_descriptor_ignores_prefix {| Util.byte := 0 |} "x" "(I)V").
  simpl. apply not_elem_of_cons. split; [discriminate|apply not_elem_of_nil].
Defined.

(** X12 at the trapped [Reference.<clinit>], whose [NATIVE] flag is forced. *)
Lemma parse_keeps_header_witness :
  Methods.cls Fixtures.reference_clinit = "Ljava/lang/ref/Reference;"
  /\ Methods.slot Fixtures.reference_clinit = (-1)%Z
  /\ Methods.name Fixtures.reference_clinit = "<clinit>"
  /\ Methods.raw_descriptor Fixtures.reference_clinit = "()V"
  /\ Util.isStatic (Methods.accessFlags Fixtures.reference_clinit) = true
  /\ Util.isAbstract (Methods.accessFlags Fixtures.reference_clinit) = false
  /\ Util.isVarArgs (Methods.accessFlags Fixtures.reference_clinit) = false
  /\ Util.isNative (Methods.accessFlags Fixtures.reference_clinit) = true.
Proof.
  apply (@parse_keeps_header Fixtures.words "Ljava/lang/ref/Reference;"
           [8; 1; 2; 0]%Z Fixtures.pool Fixtures.reference_clinit []).
  vm_compute. reflexivity.
Defined.

(** X13 at a method with bytecode. *)
Lemma getCodeAttribute_first_Code_witness :
  Methods.getCodeAttribute Fixtures.bytecode_run
  = inr (Methods.CodeAttribute
           (Some {| Methods.getName := "Code"; Methods.body := 3 |})).
Proof.
  apply (@getCodeAttribute_first_Code Fixtures.words "Lfoo/Bar;"
           [1; 8; 9; 1; 3]%Z Fixtures.pool Fixtures.bytecode_run []).
  - vm_compute. reflexivity.
  - reflexivity.
  - reflexivity.
Defined.

(** X14 at [foo/Bar::registerNatives()V]. *)
Lemma parse_native_nop_witness :
  Methods.code Samples.register_natives = Methods.CodeFunction Methods.Nop.
Proof.
  apply (@parse_native_nop Fixtures.words "Lfoo/Bar;"
           [0x0108; 1; 2; 0]%Z Samples.pool Samples.register_natives []).
  - vm_compute. reflexivity.
  - vm_compute. reflexivity.
  - reflexivity.
  - left. reflexivity.
  - reflexivity.
  - discriminate.
Defined.

(** X15 at [run(IJLjava/lang/String;[D)V]: 6 words for 5 parameters, one
    of them wide. *)
Lemma parse_size_bounds_witness :
  (Methods.getParamWordSize Fixtures.bytecode_run
   = Methods.getNumberOfParameters Fixtures.bytecode_run + 1
   /\ 0 <= Methods.getNumberOfParameters Fixtures.bytecode_run
      <= Methods.getParamWordSize Fixtures.bytecode_run
   /\ Methods.getParamWordSize Fixtures.bytecode_run
      <= 2 * Methods.getNumberOfParameters Fixtures.bytecode_run)%Z.
Proof.
  apply (@parse_size_bounds Fixtures.words "Lfoo/Bar;"
           [1; 8; 9; 1; 3]%Z Fixtures.pool Fixtures.bytecode_run []).
  vm_compute. reflexivity.
Defined.

(** X17 on a stack of three for a method of two words. *)
Lemma takeArgs_splits_stack_witness :
  exists r h' rest params,
    Methods.takeArgs Samples.static_add 0%nat
      [[Methods.Num 7; Methods.Num 1; Methods.Num 2]]
    = (inr r, h')
    /\ [[Methods.Num 7; Methods.Num 1; Methods.Num 2]] !! r = None
    /\ h' !! 0%nat = Some rest
    /\ h' !! r = Some params
    /\ [Methods.Num 7; Methods.Num 1; Methods.Num 2] = rest ++ params
    /\ Z.of_nat (length params) = 2%Z
    /\ forall a, a <> r -> a <> 0%nat ->
         h' !! a = [[Methods.Num 7; Methods.Num 1; Methods.Num 2]] !! a.
Proof.
  apply (takeArgs_splits_stack Samples.static_add 0%nat
           [Methods.Num 7; Methods.Num 1; Methods.Num 2]
           [[Methods.Num 7; Methods.Num 1; Methods.Num 2]]).
  - reflexivity.
  - simpl. lia.
Defined.

(** X18 on a stack of one for a method of two words. *)
Lemma takeArgs_underflow_witness :
  exists h',
    Methods.takeArgs Samples.static_add 0%nat [[Methods.Num 7]]
    = (inl (JS.RangeError "Invalid array length"), h')
    /\ forall a, (a < 1)%nat -> h' !! a = [[Methods.Num 7]] !! a.
Proof.
  apply (takeArgs_underflow Samples.static_add 0%nat [Methods.Num 7]
           [[Methods.Num 7]]).
  - reflexivity.
  - simpl. lia.
Defined.

(** X19 at [run(IJLjava/lang/String;[D)V] with its six words. *)
Lemma convertArgs_subsequence_witness :
  exists r h' out,
    Methods.convertArgs Fixtures.bytecode_run (Methods.Thread 0) 0%nat
      [[Methods.Ref 9; Methods.Num 1; Methods.Num 2; Methods.Null;
        Methods.Ref 7; Methods.Ref 8]]
    = (inr r, h')
    /\ h' !! r = Some (Methods.Thread 0 :: out)
    /\ out `sublist_of` [Methods.Ref 9; Methods.Num 1; Methods.Num 2;
                          Methods.Null; Methods.Ref 7; Methods.Ref 8]
    /\ Z.of_nat (length out) = 5%Z.
Proof.
  apply (@convertArgs_subsequence Fixtures.words "Lfoo/Bar;"
           [1; 8; 9; 1; 3]%Z Fixtures.pool Fixtures.bytecode_run []
           (Methods.Thread 0) 0%nat
           [Methods.Ref 9; Methods.Num 1; Methods.Num 2; Methods.Null;
            Methods.Ref 7; Methods.Ref 8]
           [[Methods.Ref 9; Methods.Num 1; Methods.Num 2; Methods.Null;
             Methods.Ref 7; Methods.Ref 8]]).
  - vm_compute. reflexivity.
  - reflexivity.
  - reflexivity.
  - reflexivity.
Defined.

(** X20 at the static [add(II)I]. *)
Lemma convertArgs_no_wide_witness :
  exists r h',
    Methods.convertArgs Samples.static_add (Methods.Thread 0) 0%nat
      [[Methods.Num 1; Methods.Num 2]]
    = (inr r, h')
    /\ h' !! r = Some [Methods.Thread 0; Methods.Num 1; Methods.Num 2].
Proof.
  apply (@convertArgs_no_wide Fixtures.words "Lfoo/Bar;"
           [9; 4; 5; 1; 3]%Z Samples.pool Samples.static_add []
           (Methods.Thread 0) 0%nat [Methods.Num 1; Methods.Num 2]
           [[Methods.Num 1; Methods.Num 2]]).
  - vm_compute. reflexivity.
  - reflexivity.
  - reflexivity.
  - reflexivity.
  - reflexivity.
Defined.

(** X21 at a method whose code has an [<any>] handler and one for
    [java/lang/Error]. *)
Lemma toResolve_members_witness :
  "Ljava/lang/Error;"
    ∈ ["V"; "Ljava/lang/Throwable;"; "Ljava/lang/Error;"; "I"; "J";
       "Ljava/lang/String;"; "[D"]
  <-> "Ljava/lang/Error;" = Methods.return_type Fixtures.bytecode_run
      \/ "Ljava/lang/Error;" ∈ Methods.param_types Fixtures.bytecode_run
      \/ (exists a,
            Methods.get_attribute (Methods.attrs Fixtures.bytecode_run)
              "Exceptions" = Some a
            /\ "Ljava/lang/Error;" ∈ @Members.exceptions Samples.views a)
      \/ (Util.isNative (Methods.accessFlags Fixtures.bytecode_run) = false
          /\ Util.isAbstract (Methods.accessFlags Fixtures.bytecode_run)
             = false
          /\ exists a,
               Methods.code Fixtures.bytecode_run
               = Methods.CodeAttribute (Some a)
               /\ @Members.catchTypes Samples.views a <> []
               /\ ("Ljava/lang/Error;" = "Ljava/lang/Throwable;"
                   \/ ("Ljava/lang/Error;" ∈ @Members.catchTypes Samples.views a
                       /\ "Ljava/lang/Error;" <> "<any>"))).
Proof.
  apply (@toResolve_members Samples.views Fixtures.bytecode_run
           ["V"; "Ljava/lang/Throwable;"; "Ljava/lang/Error;"; "I"; "J";
            "Ljava/lang/String;"; "[D"]).
  reflexivity.
Defined.

(** X22 at the static [add(II)I], with a loader that knows the three
    classes asked for. *)
Lemma reflector_builds_mirror_witness :
  exists mir,
    @Members.reflector Samples.views (fun _ => Some Samples.loaded)
      Samples.static_add false 1%Z
    = inr (Some mir)
    /\ Members.parameterTypes mir = [5; 5]%Z
    /\ Members.returnType mir = 5%Z.
Proof.
  destruct (@reflector_builds_mirror Samples.views
              (fun _ => Some Samples.loaded)
              Samples.static_add false 1%Z
              ["I"; "Ljava/lang/Throwable;"; "Ljava/lang/Error;"; "I"; "I"]
              eq_refl)
    as (mir & Hrun & Hps & Hrt & _).
  - intros d Hd.
    repeat (apply elem_of_cons in Hd as [->|Hd]; [by eexists|]).
    by apply not_elem_of_nil in Hd.
  - exists mir. split; [exact Hrun|].
    vm_compute in Hrun. injection Hrun as <-. split; reflexivity.
Defined.

(** X23 at a public [run()V] without a [Code] attribute. *)
Lemma reflector_without_code_witness :
  @Members.reflector Samples.views (fun _ => Some Samples.loaded)
    Samples.codeless_run false 1%Z
  = inl (JS.TypeError "Cannot read property 'exceptionHandlers' of null").
Proof.
  destruct (@reflector_without_code Fixtures.words Samples.views "Lfoo/Bar;"
              [1; 6; 2; 0]%Z Samples.pool Samples.codeless_run [])
    as [_ Hthrow].
  - vm_compute. reflexivity.
  - apply (Hthrow _ eq_refl).
Defined.

